(** * Spoiler Blocker: the content-script core, embedded and verified

    The development follows [src/contentScript.js]: the matcher builder
    ([buildRegex]), the masking engine ([maskElement], [unmaskElement]), the
    text node filter of [textNodesUnder], the gate at the head of [runScan],
    the [debounce] scheduler and the merging of settings patches
    ([loadSettings], the [SB_SETTINGS_UPDATED] listener).  The last part
    covers the scan pass as a whole and the control surfaces that edit the
    stored settings ([popup.js], [options.js], [background.js]).

    Host facilities (RegExp, timers, the DOM) are modelled next to the code
    that calls them, each in a module of its own. *)

From Stdlib Require Import ZArith Ascii String List Lia Bool.
From stdpp Require Import base option list strings gmap.

Set Warnings "-register-all,-clear-no-such-hyp".
Local Open Scope char_scope.

(** ** Text

    A JavaScript string is a sequence of UTF-16 code units.  The model keeps
    the code units U+0000..U+00FF, one [ascii] each. *)

Abbreviation text := (list ascii).

Definition txt (s : string) : text := list_ascii_of_string s.

Definition code (c : ascii) : N := N_of_ascii c.

Definition between (lo hi : N) (c : ascii) : bool :=
  (lo <=? code c)%N && (code c <=? hi)%N.

(** [String.prototype.trim] strips WhiteSpace and LineTerminator code units:
    TAB, LF, VT, FF, CR, SP and NBSP are the ones below U+0100. *)
Definition isWhiteSpace (c : ascii) : bool :=
  between 9 13 c || (code c =? 32)%N || (code c =? 160)%N.

Fixpoint trimStart (s : text) : text :=
  match s with
  | c :: s' => if isWhiteSpace c then trimStart s' else s
  | [] => []
  end.

Definition trimEnd (s : text) : text := rev (trimStart (rev s)).

Definition trim (s : text) : text := trimEnd (trimStart s).

(** ** The host's RegExp, for the patterns [buildRegex] writes *)

Module RegExp.

(** SyntaxCharacter of the pattern grammar: [^ $ \ . * + ? ( ) [ ] { } |]. *)
Definition syntaxCharacter (c : ascii) : bool :=
  bool_decide (c ∈ txt "^$\.*+?()[]{}|").

(** Canonicalize, for a RegExp without the [u] flag: the code unit's upper
    case when [ignoreCase] is set.  Below U+0100 the letters a-z and the
    Latin-1 letters U+00E0..U+00FE (U+00F7 is the division sign) have one;
    the upper case of U+00B5 and U+00FF lies above U+00FF and that of
    U+00DF is two units long, so each of the three stands for itself. *)
Definition toUpperCase (c : ascii) : ascii :=
  if between 97 122 c || (between 224 254 c && negb (code c =? 247)%N)
  then ascii_of_N (code c - 32)
  else c.

Definition canonicalize (ignoreCase : bool) (c : ascii) : ascii :=
  if ignoreCase then toUpperCase c else c.

(** IsWordChar: [A-Za-z0-9_]. *)
Definition isWordChar (c : ascii) : bool :=
  between 97 122 c || between 65 90 c || between 48 57 c || (code c =? 95)%N.

Definition isLineTerminator (c : ascii) : bool :=
  (code c =? 10)%N || (code c =? 13)%N.

(** The terms of a pattern.  A disjunction is a list of alternatives, an
    alternative a list of terms. *)
Inductive term : Type :=
| Chr (c : ascii)
| Dot
| Bol
| Eol
| WordB
| NotWordB
| Group (alts : list (list term)).

Abbreviation disjunction := (list (list term)).

Inductive token : Type :=
| TChar (c : ascii)
| TDot
| TBol
| TEol
| TWordB
| TNotWordB
| TOpen
| TClose
| TBar.

(** A character of the pattern that is not part of an escape.  Quantifiers,
    classes and braces are outside the modelled fragment ([None]). *)
Definition patternCharacter (c : ascii) : option token :=
  if Ascii.eqb c "." then Some TDot
  else if Ascii.eqb c "^" then Some TBol
  else if Ascii.eqb c "$" then Some TEol
  else if Ascii.eqb c "(" then Some TOpen
  else if Ascii.eqb c ")" then Some TClose
  else if Ascii.eqb c "|" then Some TBar
  else if syntaxCharacter c then None
  else Some (TChar c).

(** The character after a backslash: an escaped SyntaxCharacter is that
    character, [\b] and [\B] are the word-boundary assertions. *)
Definition atomEscape (c : ascii) : option token :=
  if syntaxCharacter c then Some (TChar c)
  else if Ascii.eqb c "b" then Some TWordB
  else if Ascii.eqb c "B" then Some TNotWordB
  else None.

Fixpoint tokenize (p : text) : option (list token) :=
  match p with
  | [] => Some []
  | c :: p' =>
      if Ascii.eqb c "\" then
        match p' with
        | [] => None
        | e :: p'' =>
            match atomEscape e, tokenize p'' with
            | Some tok, Some ts => Some (tok :: ts)
            | _, _ => None
            end
        end
      else
        match patternCharacter c, tokenize p' with
        | Some tok, Some ts => Some (tok :: ts)
        | _, _ => None
        end
  end.

(** The parser keeps, for the group being read, the alternatives already
    closed and the terms of the current one (both most recent first), and a
    stack of such frames for the enclosing groups. *)
Record frame : Type := Frame { closed : disjunction; current : list term }.

Definition frame0 : frame := Frame [] [].

Definition push (r : term) (f : frame) : frame :=
  Frame (closed f) (r :: current f).

Definition nextAlternative (f : frame) : frame :=
  Frame (rev (current f) :: closed f) [].

Definition finish (f : frame) : disjunction :=
  rev (rev (current f) :: closed f).

Fixpoint parse (ts : list token) (f : frame) (stack : list frame)
  : option disjunction :=
  match ts with
  | [] => match stack with [] => Some (finish f) | _ :: _ => None end
  | TOpen :: ts' => parse ts' frame0 (f :: stack)
  | TClose :: ts' =>
      match stack with
      | [] => None
      | g :: stack' => parse ts' (push (Group (finish f)) g) stack'
      end
  | TBar :: ts' => parse ts' (nextAlternative f) stack
  | TChar c :: ts' => parse ts' (push (Chr c) f) stack
  | TDot :: ts' => parse ts' (push Dot f) stack
  | TBol :: ts' => parse ts' (push Bol f) stack
  | TEol :: ts' => parse ts' (push Eol f) stack
  | TWordB :: ts' => parse ts' (push WordB f) stack
  | TNotWordB :: ts' => parse ts' (push NotWordB f) stack
  end.

Definition compile (p : text) : option disjunction :=
  match tokenize p with
  | Some ts => parse ts frame0 []
  | None => None
  end.

(** Matching.  [wordAt s i] is IsWordChar at index [i] (false outside the
    input); [\b] holds at [i] when exactly one of [i - 1] and [i] is a word
    character. *)
Definition wordAt (s : text) (i : nat) : bool :=
  match s !! i with Some c => isWordChar c | None => false end.

Definition wordBefore (s : text) (i : nat) : bool :=
  match i with O => false | S j => wordAt s j end.

Definition isWordBoundary (s : text) (i : nat) : bool :=
  xorb (wordBefore s i) (wordAt s i).

Definition guard (b : bool) (i : nat) : list nat := if b then [i] else [].

(** The end positions of an alternative started at [i]: its terms in turn,
    each from every end the previous ones reached. *)
Definition sequence {A} (step : A → nat → list nat) (terms : list A) (i : nat)
  : list nat :=
  foldl (λ ends r, ends ≫= step r) [i] terms.

(** [ends ic s r i]: every index at which a match of [r] started at [i] can
    end.  A backtracking matcher finds a match exactly when one exists. *)
Fixpoint ends (ic : bool) (s : text) (r : term) (i : nat) : list nat :=
  match r with
  | Chr c =>
      match s !! i with
      | Some d =>
          guard (Ascii.eqb (canonicalize ic c) (canonicalize ic d)) (S i)
      | None => []
      end
  | Dot =>
      match s !! i with
      | Some d => guard (negb (isLineTerminator d)) (S i)
      | None => []
      end
  | Bol => guard (i =? 0)%nat i
  | Eol => guard (i =? length s)%nat i
  | WordB => guard (isWordBoundary s i) i
  | NotWordB => guard (negb (isWordBoundary s i)) i
  | Group alts => alts ≫= (λ alt, sequence (ends ic s) alt i)
  end.

Definition matchesAt (ic : bool) (s : text) (d : disjunction) (i : nat) : bool :=
  match d ≫= (λ alt, sequence (ends ic s) alt i) with
  | [] => false
  | _ :: _ => true
  end.

(** A RegExp object made by [new RegExp(source, 'i')]. *)
Record t : Type := Make { source : text; ignoreCase : bool }.

(** [regex.test(s)] without the [g] and [y] flags: is there a match starting
    at some index of [s].  [None] when the source is outside the fragment. *)
Definition test (r : t) (s : text) : option bool :=
  match compile (source r) with
  | Some d => Some (existsb (matchesAt (ignoreCase r) s d) (seq 0 (S (length s))))
  | None => None
  end.

End RegExp.

(** ** Matcher builder *)

(** [k.replace(/[.*+?^${}()|[\]\\]/g, '\\$&')]: a backslash before each
    character of the class. *)
Definition inEscapeClass (c : ascii) : bool :=
  bool_decide (c ∈ txt ".*+?^${}()|[]\").

Definition escapeRegExp (k : text) : text :=
  k ≫= (λ c, if inEscapeClass c then ["\"; c] else [c]).

(** [Array.prototype.join]. *)
Fixpoint join (sep : text) (parts : list text) : text :=
  match parts with
  | [] => []
  | [p] => p
  | p :: rest => p ++ sep ++ join sep rest
  end.

Definition nonEmpty (k : text) : bool :=
  match k with [] => false | _ :: _ => true end.

(** The keywords the builder keeps: trimmed, blanks dropped. *)
Definition keptKeywords (keywords : list text) : list text :=
  filter (λ k, nonEmpty k = true) (trim <$> keywords).

Definition buildRegex (keywords : list text) (partial : bool) : option RegExp.t :=
  if (length keywords =? 0)%nat then None
  else
    let escaped := escapeRegExp <$> keptKeywords keywords in
    if (length escaped =? 0)%nat then None
    else
      let pattern :=
        if partial
        then txt "(" ++ join (txt "|") escaped ++ txt ")"
        else txt "\b(" ++ join (txt "|") escaped ++ txt ")\b" in
      Some (RegExp.Make pattern true).

(** [isTrimOf t s]: [t] is [s] without the white space at its two ends. *)
Definition isTrimOf (t s : text) : Prop :=
  (∃ ws1 ws2, s = ws1 ++ t ++ ws2
     ∧ Forall (λ c, isWhiteSpace c = true) ws1
     ∧ Forall (λ c, isWhiteSpace c = true) ws2)
  ∧ (∀ c rest, t = c :: rest → isWhiteSpace c = false)
  ∧ (∀ c init, t = init ++ [c] → isWhiteSpace c = false).

(** ** Matching, stated

    [occursAt k s i]: the keyword [k] occurs in [s] at index [i], letter case
    apart.  [occursAtb] computes it. *)
Definition sameUpToCase (a b : text) : Prop :=
  RegExp.toUpperCase <$> a = RegExp.toUpperCase <$> b.

Definition occursAt (k s : text) (i : nat) : Prop :=
  ∃ pre mid post, s = pre ++ mid ++ post ∧ length pre = i ∧ sameUpToCase mid k.

Fixpoint occursAtb (k s : text) (i : nat) : bool :=
  match k with
  | [] => true
  | c :: k' =>
      match s !! i with
      | Some d =>
          Ascii.eqb (RegExp.toUpperCase c) (RegExp.toUpperCase d)
          && occursAtb k' s (S i)
      | None => false
      end
  end.

(** The program a pattern of [buildRegex] stands for: the kept keywords as
    alternatives of literal characters, between two [\b] unless [partial]. *)
Definition literalAlternatives (ks : list text) : RegExp.term :=
  RegExp.Group ((λ k : text, RegExp.Chr <$> k) <$> ks).

Definition keywordProgram (partial : bool) (ks : list text) : list (list RegExp.term) :=
  if partial then [[literalAlternatives ks]]
  else [[RegExp.WordB; literalAlternatives ks; RegExp.WordB]].

(** The tokens of the alternatives [k1|k2|...] of literal keywords. *)
Fixpoint alternativesTokens (ks : list text) : list RegExp.token :=
  match ks with
  | [] => []
  | [k] => RegExp.TChar <$> k
  | k :: ks' => (RegExp.TChar <$> k) ++ RegExp.TBar :: alternativesTokens ks'
  end.

(** [keywordMatch partial ks s]: some keyword of [ks] occurs in [s], letter
    case apart, and, unless [partial], with a word boundary right before and
    right after the occurrence. *)
Definition keywordMatch (partial : bool) (ks : list text) (s : text) : Prop :=
  ∃ k i, k ∈ ks ∧ occursAt k s i
    ∧ (partial = false →
       RegExp.isWordBoundary s i = true
       ∧ RegExp.isWordBoundary s (i + length k) = true).

(** ** The page

    The elements the script holds references to, by handle.  An [element]
    carries what the engine reads and writes: its class list, its [data-*]
    attributes, its inline style, the computed style the host reports for
    it, its click listeners, and the element nodes below it. *)

Local Close Scope char_scope.
Local Open Scope string_scope.
Local Open Scope list_scope.

(** Values of the inline style the engine writes: a keyword or a literal
    text, [`${n}px`] and [`blur(${n}px)`].  The inline style maps a property
    name to its declaration; a shorthand ([background], [outline],
    [overflow]) is kept as the one property the code names. *)
Inductive cssValue : Type :=
| Keyword (v : string)
| Px (n : Z)
| BlurPx (n : Z).

Record declaration : Type := Declaration { value : cssValue; important : bool }.

(** A click listener that calls [unmaskElement(el)] on the masked element;
    [once] as in [{ once: true }]. *)
Inductive listener : Type := Reveal (once : bool).

(** An element node below an element. *)
Inductive node : Type :=
| Node (className : list string) (textContent : string) (cssText : string)
       (onClick : list listener) (childNodes : list node).

Definition nodeClasses (n : node) : list string :=
  match n with Node cs _ _ _ _ => cs end.

Record computed : Type := Computed { visibility : string; display : string }.

Record element : Type := Element {
  classList : list string;
  dataset : gmap string string;
  style : gmap string declaration;
  computedStyle : option computed;
  clickListeners : list listener;
  children : list node
}.

Abbreviation handle := nat.
Abbreviation page := (gmap handle element).

(** A JavaScript value in a position where an element is expected. *)
Inductive ref : Type := Null | Undefined | Ref (h : handle).

Definition truthy (r : ref) : bool :=
  match r with Ref _ => true | Null | Undefined => false end.

(** *** Effects: the page is threaded, a TypeError ends the call *)

Inductive error : Type := TypeError.

Inductive outcome (A : Type) : Type :=
| Normal (a : A) (σ : page)
| Throw (e : error).
Arguments Normal {A} a σ.
Arguments Throw {A} e.

Definition M (A : Type) : Type := page → outcome A.

#[global] Instance M_ret : MRet M := λ A a σ, Normal a σ.

#[global] Instance M_bind : MBind M :=
  λ A B k m σ, match m σ with Normal a σ' => k a σ' | Throw e => Throw e end.

Definition ret {A} (a : A) : M A := mret a.

(** Reading a property of [null] or [undefined] is a TypeError.  (So is, in
    the model, the use of a handle that names no element of the page.) *)
Definition read {A} (r : ref) (get : element → A) : M A :=
  λ σ, match r with
       | Ref h => match σ !! h with
                  | Some e => Normal (get e) σ
                  | None => Throw TypeError
                  end
       | Null | Undefined => Throw TypeError
       end.

Definition update (r : ref) (f : element → element) : M unit :=
  λ σ, match r with
       | Ref h => match σ !! h with
                  | Some e => Normal tt (<[h := f e]> σ)
                  | None => Throw TypeError
                  end
       | Null | Undefined => Throw TypeError
       end.

(** *** DOM operations the engine calls *)

Definition withClassList (f : list string → list string) (e : element) : element :=
  let 'Element cs ds st cst ls kids := e in Element (f cs) ds st cst ls kids.

Definition withDataset (f : gmap string string → gmap string string) (e : element)
  : element :=
  let 'Element cs ds st cst ls kids := e in Element cs (f ds) st cst ls kids.

Definition withStyle (f : gmap string declaration → gmap string declaration)
  (e : element) : element :=
  let 'Element cs ds st cst ls kids := e in Element cs ds (f st) cst ls kids.

Definition withListeners (f : list listener → list listener) (e : element) : element :=
  let 'Element cs ds st cst ls kids := e in Element cs ds st cst (f ls) kids.

Definition withChildren (f : list node → list node) (e : element) : element :=
  let 'Element cs ds st cst ls kids := e in Element cs ds st cst ls (f kids).

Definition hasToken (tok : string) (cs : list string) : bool :=
  bool_decide (tok ∈ cs).

(** [el.classList.contains(tok)], [.add(tok)], [.remove(tok)]. *)
Definition classList_contains (el : ref) (tok : string) : M bool :=
  read el (λ e, hasToken tok (classList e)).

Definition classList_add (el : ref) (tok : string) : M unit :=
  update el (withClassList (λ cs, if hasToken tok cs then cs else (cs ++ [tok])%list)).

Definition classList_remove (el : ref) (tok : string) : M unit :=
  update el (withClassList (filter (λ c, c ≠ tok))).

(** [el.dataset[key] = v]. *)
Definition dataset_set (el : ref) (key v : string) : M unit :=
  update el (withDataset <[key := v]>).

(** [el.style.setProperty(name, v, 'important')] and
    [el.style.removeProperty(name)]. *)
Definition style_setProperty (el : ref) (name : string) (v : cssValue) : M unit :=
  update el (withStyle <[name := Declaration v true]>).

Definition style_removeProperty (el : ref) (name : string) : M unit :=
  update el (withStyle (delete name)).

Definition addEventListener (el : ref) (l : listener) : M unit :=
  update el (withListeners (λ ls, (ls ++ [l])%list)).

Definition appendChild (el : ref) (n : node) : M unit :=
  update el (withChildren (λ kids, (kids ++ [n])%list)).

(** [querySelector]: the first element below, in document order, that the
    selector matches, as the path of child indices that leads to it. *)
Section Query.
Variable sel : node → bool.

Definition firstMatch (below : node → option (list nat)) : list node → nat → option (list nat) :=
  fix go (l : list node) (i : nat) : option (list nat) :=
    match l with
    | [] => None
    | n :: l' =>
        if sel n then Some [i]
        else match below n with
             | Some p => Some (i :: p)
             | None => go l' (S i)
             end
    end.

Fixpoint queryBelow (n : node) : option (list nat) :=
  match n with
  | Node _ _ _ _ kids => firstMatch queryBelow kids 0
  end.

Definition queryNodes (kids : list node) : option (list nat) :=
  firstMatch queryBelow kids 0.

End Query.

Definition hasClass (c : string) (n : node) : bool := hasToken c (nodeClasses n).

Definition querySelector (el : ref) (className : string) : M (option (list nat)) :=
  read el (λ e, queryNodes (hasClass className) (children e)).

(** [node.remove()] for the node at a path: it leaves its parent's list. *)
Fixpoint removeAt (p : list nat) (kids : list node) : list node :=
  match p with
  | [] => kids
  | [i] => delete i kids
  | i :: p' =>
      match kids !! i with
      | Some (Node cs t css ls below) =>
          <[i := Node cs t css ls (removeAt p' below)]> kids
      | None => kids
      end
  end.

Definition removeNode (el : ref) (p : list nat) : M unit :=
  update el (withChildren (removeAt p)).

(** ** Numbers

    A settings number: NaN or an integral value. *)
Inductive number : Type := NaN | Num (z : Z).

(** [x || d] for a number [x]: [d] when [x] is 0 or NaN. *)
Definition orElse (x : number) (d : Z) : Z :=
  match x with
  | Num z => if (z =? 0)%Z then d else z
  | NaN => d
  end.

(** ** Masking engine *)

Definition overlay : node :=
  Node ["sb-overlay"] "Spoiler hidden — click to reveal"
       "position:absolute;inset:0;display:flex;align-items:center;justify-content:center;font-weight:600;background:rgba(0,0,0,.6);color:#fff;cursor:pointer;"
       [Reveal false] [].

Definition maskElement (el : ref) (mode : string) (intensity : number) (debug : bool)
  : M unit :=
  if negb (truthy el) then ret tt else
  classList_contains el "sb-masked" ≫= λ masked : bool,
  if masked then ret tt else
  classList_add el "sb-masked";;
  dataset_set el "sbMaskMode" mode;;
  (if String.eqb mode "blackout" then
     style_setProperty el "color" (Keyword "transparent");;
     style_setProperty el "background" (Keyword "#000");;
     style_setProperty el "text-shadow" (Keyword "none");;
     style_setProperty el "filter" (Keyword "none")
   else if String.eqb mode "collapse" then
     style_setProperty el "max-height" (Px (Z.max 0 (orElse intensity 0)));;
     style_setProperty el "overflow" (Keyword "hidden");;
     style_setProperty el "position" (Keyword "relative");;
     appendChild el overlay
   else
     style_setProperty el "filter" (BlurPx (Z.max 2 (orElse intensity 8)));;
     style_setProperty el "text-shadow" (Keyword "0 0 12px rgba(0,0,0,.5)");;
     style_setProperty el "cursor" (Keyword "pointer");;
     addEventListener el (Reveal true));;
  if debug then style_setProperty el "outline" (Keyword "2px dashed #ff4d4f")
  else ret tt.

Definition unmaskElement (el : ref) : M unit :=
  if negb (truthy el) then ret tt else
  classList_remove el "sb-masked";;
  style_removeProperty el "filter";;
  style_removeProperty el "color";;
  style_removeProperty el "background";;
  style_removeProperty el "text-shadow";;
  style_removeProperty el "outline";;
  style_removeProperty el "max-height";;
  style_removeProperty el "overflow";;
  style_removeProperty el "position";;
  querySelector el "sb-overlay" ≫= λ found : option (list nat),
  match found with
  | Some p => removeNode el p
  | None => ret tt
  end.


(** ** Text node walker

    [textNodesUnder(root)] walks the text nodes below [root] in document
    order ([NodeFilter.SHOW_TEXT]) and yields those [acceptNode] accepts.  A
    text node is given by its value and its parent element. *)

Record textNode : Type := TextNode { nodeValue : text; parentElement : ref }.

(** [parent.ownerDocument?.defaultView?.getComputedStyle(parent)]. *)
Definition getComputedStyle (σ : page) (parent : ref) : option computed :=
  match parent with
  | Ref h => σ !! h ≫= computedStyle
  | Null | Undefined => None
  end.

(** The filter; [true] is [FILTER_ACCEPT], [false] is [FILTER_REJECT]. *)
Definition acceptNode (σ : page) (n : textNode) : bool :=
  let text := trim (nodeValue n) in
  if negb (nonEmpty text) || (length text <? 2)%nat then false else
  let parent := parentElement n in
  if negb (truthy parent) then false else
  match getComputedStyle σ parent with
  | None => false
  | Some style' =>
      if String.eqb (visibility style') "hidden" || String.eqb (display style') "none"
      then false else true
  end.

Definition textNodesUnder (σ : page) (below : list textNode) : list textNode :=
  filter (λ n, acceptNode σ n = true) below.

(** ** Settings *)

Record siteRule : Type := SiteRule { ruleEnabled : option bool }.

Record settings : Type := Settings {
  enabled : bool;
  snoozeUntil : Z;
  keywords : list text;
  mode : string;
  intensity : number;
  partial : bool;
  highlightDebug : bool;
  siteRules : gmap string siteRule
}.

(** ** Scan *)

Fixpoint forEach {A} (l : list A) (body : A → M unit) : M unit :=
  match l with
  | [] => ret tt
  | x :: l' => body x;; forEach l' body
  end.

(** [scan(regex)], over the text nodes below [document.body] when the pass
    starts.  The walker filters as the loop goes; the filter reads the text
    and the computed style of the parent only, which masking leaves as they
    are, so the nodes are the ones [textNodesUnder] gives for the page the
    pass starts with.  The label of an overlay that the pass itself inserts
    is not among them. *)
Definition scan (state : settings) (body : list textNode) (regex : option RegExp.t)
  : M unit :=
  match regex with
  | None => ret tt
  | Some re =>
      (λ σ, Normal (textNodesUnder σ body) σ) ≫= λ nodes : list textNode,
      forEach nodes (λ tn,
        match RegExp.test re (nodeValue tn) with
        | Some true =>
            maskElement (parentElement tn) (mode state) (intensity state)
                        (highlightDebug state)
        | _ => ret tt
        end)
  end.

(** [location.hostname.replace(/^www\./, '')]. *)
Definition stripWww (hostname : string) : string :=
  match hostname with
  | String "w" (String "w" (String "w" (String "." rest))) => rest
  | _ => hostname
  end.

(** The head of [runScan]'s body: [snoozed], [siteEnabled] and the test that
    returns before any scanning.  [siteGate] is its negation: should the
    scan run. *)
Definition snoozed (state : settings) (now : Z) : bool :=
  (now <? snoozeUntil state)%Z.

Definition siteEnabled (state : settings) (hostname : string) : bool :=
  match siteRules state !! stripWww hostname with
  | Some rule => default true (ruleEnabled rule)
  | None => true
  end.

Definition gateDenies (state : settings) (hostname : string) (now : Z) : bool :=
  negb (enabled state) || snoozed state now || negb (siteEnabled state hostname).

Definition siteGate (state : settings) (hostname : string) (now : Z) : bool :=
  negb (gateDenies state hostname now).

(** The function [runScan] debounces. *)
Definition runScanBody (state : settings) (hostname : string) (now : Z)
  (body : list textNode) : M unit :=
  if gateDenies state hostname now then ret tt
  else scan state body (buildRegex (keywords state) (partial state)).

(** ** Settings snapshot as an object

    [state] is a plain object, its fields JavaScript values. *)
Inductive jsValue : Type :=
| VUndefined
| VNull
| VBool (b : bool)
| VNumber (n : number)
| VString (s : string)
| VArray (items : list jsValue)
| VObject (fields : list (string * jsValue)).

Abbreviation object := (gmap string jsValue).

Definition isUndefined (v : jsValue) : bool :=
  match v with VUndefined => true | _ => false end.

(** The storage area and the message channel carry JSON.  Serialised, a
    property that holds [undefined] is left out, [undefined] in an array and
    NaN become [null]. *)
Fixpoint toJSON (v : jsValue) : jsValue :=
  match v with
  | VUndefined => VNull
  | VNumber NaN => VNull
  | VArray items => VArray (toJSON <$> items)
  | VObject fields =>
      VObject ((fix go (fs : list (string * jsValue)) : list (string * jsValue) :=
                  match fs with
                  | [] => []
                  | (k, x) :: fs' =>
                      if isUndefined x then go fs' else (k, toJSON x) :: go fs'
                  end) fields)
  | _ => v
  end.

Definition jsonObject (o : object) : object :=
  toJSON <$> filter (λ kv, isUndefined kv.2 = false) o.

Definition DEFAULTS : object :=
  {[ "enabled" := VBool true;
     "snoozeUntil" := VNumber (Num 0);
     "keywords" := VArray [];
     "mode" := VString "blur";
     "intensity" := VNumber (Num 8);
     "partial" := VBool false;
     "highlightDebug" := VBool false;
     "siteRules" := VObject [] ]}.

(** [{ ...a, ...b }] and [Object.assign(a, b)]: the fields of [b], and those
    of [a] that [b] lacks. *)
Definition assign (a b : object) : object := b ∪ a.

(** [chrome.storage.sync.get(defaults)]: the stored value of each key of
    [defaults], the default where none is stored.  [stored] is what
    [chrome.storage.sync.set] was given. *)
Definition storageGet (stored defaults : object) : object :=
  filter (λ kv, kv.1 ∈ dom defaults) (jsonObject stored) ∪ defaults.

(** [loadSettings]: [state = { ...DEFAULTS, ...items }]. *)
Definition loadSettings (stored : object) : object :=
  assign DEFAULTS (storageGet stored DEFAULTS).

Record message : Type := Message { type : string; payload : option object }.

(** [chrome.tabs.sendMessage]: the listener receives the message as the
    channel serialised it. *)
Definition deliver (msg : message) : message :=
  Message (type msg) (jsonObject <$> payload msg).

(** The [chrome.runtime.onMessage] listener:
    [Object.assign(state, msg.payload || {})] on [SB_SETTINGS_UPDATED]. *)
Definition onMessage (state : object) (msg : message) : object :=
  if String.eqb (type msg) "SB_SETTINGS_UPDATED"
  then assign state (default ∅ (payload msg))
  else state.

(** background.js, the [chrome.storage.onChanged] listener: the payload
    holds [changes[k].newValue] for each changed key [k], [undefined] for a
    key that was removed (its change has no [newValue]). *)
Record storageChange : Type :=
  StorageChange { oldValue : option jsValue; newValue : option jsValue }.

Definition onChanged (changes : gmap string storageChange) (area : string)
  : option message :=
  if String.eqb area "sync"
  then Some (Message "SB_SETTINGS_UPDATED"
               (Some ((λ c, default VUndefined (newValue c)) <$> changes)))
  else None.

(** The snapshot after the initial load and the messages sent to the page,
    in the order they arrive. *)
Definition snapshotAfter (stored : object) (sent : list message) : object :=
  foldl onMessage (loadSettings stored) (deliver <$> sent).

(** Every field of [DEFAULTS] has a value other than [undefined]. *)
Definition populated (state : object) : Prop :=
  ∀ k, k ∈ dom DEFAULTS → ∃ v, state !! k = Some v ∧ isUndefined v = false.

(** No field holds [undefined]. *)
Definition defined (o : object) : Prop :=
  ∀ k v, o !! k = Some v → isUndefined v = false.

(** ** Scan scheduler

    The host's timers: [setTimeout] hands out a fresh id and records when
    the callback is due, [clearTimeout] forgets the timer of an id.  Every
    timer of the script is set by the debounced [runScan], so its callback
    is the scan. *)
Module Timers.

Record timer : Type := Timer { id : nat; due : Z }.

Record host : Type := Host { pending : list timer; nextId : nat }.

Definition setTimeout (delay now : Z) (h : host) : nat * host :=
  (nextId h, Host (pending h ++ [Timer (nextId h) (now + delay)]) (S (nextId h))).

Definition clearTimeout (t : option nat) (h : host) : host :=
  match t with
  | Some i => Host (filter (λ tm, id tm ≠ i) (pending h)) (nextId h)
  | None => h
  end.

(** The pending timer that is due first, the one set first among equals. *)
Fixpoint earliest (l : list timer) : option timer :=
  match l with
  | [] => None
  | tm :: l' =>
      match earliest l' with
      | Some tm' => if (due tm' <? due tm)%Z then Some tm' else Some tm
      | None => Some tm
      end
  end.

End Timers.

(** [debounce(fn, wait)]: the closure's [t], the host's timers, and, as the
    effect of [fn], the times at which it ran. *)
Record scheduler : Type := Scheduler {
  t : option nat;
  timers : Timers.host;
  ran : list Z
}.

Definition scheduler0 : scheduler := Scheduler None (Timers.Host [] 0) [].

(** A call of the debounced function at time [now]:
    [clearTimeout(t); t = setTimeout(() => fn(...args), wait)]. *)
Definition trigger (wait now : Z) (s : scheduler) : scheduler :=
  let h := Timers.clearTimeout (t s) (timers s) in
  let '(i, h') := Timers.setTimeout wait now h in
  Scheduler (Some i) h' (ran s).

(** The host runs the callback of a due timer: the timer is no longer
    pending and [fn] runs, at the time the timer was due. *)
Definition fire (tm : Timers.timer) (s : scheduler) : scheduler :=
  Scheduler (t s)
    (Timers.Host (filter (λ x, Timers.id x ≠ Timers.id tm) (Timers.pending (timers s)))
                 (Timers.nextId (timers s)))
    (ran s ++ [Timers.due tm]).

(** Time passes until [now]: the timers due by then fire, earliest first. *)
Fixpoint advance (fuel : nat) (now : Z) (s : scheduler) : scheduler :=
  match fuel with
  | O => s
  | S fuel' =>
      match Timers.earliest (Timers.pending (timers s)) with
      | Some tm => if (Timers.due tm <=? now)%Z then advance fuel' now (fire tm s) else s
      | None => s
      end
  end.

Definition elapse (now : Z) (s : scheduler) : scheduler :=
  advance (length (Timers.pending (timers s))) now s.

(** Triggers arrive at the given times, in order; before each, the timers
    due by then have fired. *)
Definition runTriggers (wait : Z) (times : list Z) (s : scheduler) : scheduler :=
  foldl (λ s now, trigger wait now (elapse now s)) s times.

(** [runScan = debounce(..., 300)]. *)
Definition runScanWait : Z := 300.

Definition runScan (times : list Z) : scheduler :=
  runTriggers runScanWait times scheduler0.

(** ** The engine's effect on one element

    What [maskElement] does to an element that carries no mask, and what
    [unmaskElement] does to any element, as functions on the element; the
    proofs show that the code above computes them. *)

Definition unmaskedProperties : list string :=
  ["filter"; "color"; "background"; "text-shadow"; "outline"; "max-height";
   "overflow"; "position"].

Definition important' (v : cssValue) : declaration := Declaration v true.

Definition modeEffect (mode : string) (intensity : number) (e : element) : element :=
  if String.eqb mode "blackout" then
    withStyle (λ st,
      <["filter" := important' (Keyword "none")]>
        (<["text-shadow" := important' (Keyword "none")]>
           (<["background" := important' (Keyword "#000")]>
              (<["color" := important' (Keyword "transparent")]> st)))) e
  else if String.eqb mode "collapse" then
    withChildren (λ kids, (kids ++ [overlay])%list)
      (withStyle (λ st,
         <["position" := important' (Keyword "relative")]>
           (<["overflow" := important' (Keyword "hidden")]>
              (<["max-height" := important' (Px (Z.max 0 (orElse intensity 0)))]> st))) e)
  else
    withListeners (λ ls, (ls ++ [Reveal true])%list)
      (withStyle (λ st,
         <["cursor" := important' (Keyword "pointer")]>
           (<["text-shadow" := important' (Keyword "0 0 12px rgba(0,0,0,.5)")]>
              (<["filter" := important' (BlurPx (Z.max 2 (orElse intensity 8)))]> st))) e).

Definition maskEffect (mode : string) (intensity : number) (debug : bool)
  (e : element) : element :=
  let e1 := withClassList (λ cs, (cs ++ ["sb-masked"])%list) e in
  let e2 := withDataset <["sbMaskMode" := mode]> e1 in
  let e3 := modeEffect mode intensity e2 in
  if debug
  then withStyle <["outline" := important' (Keyword "2px dashed #ff4d4f")]> e3
  else e3.

Definition removeOverlay (kids : list node) : list node :=
  match queryNodes (hasClass "sb-overlay") kids with
  | Some p => removeAt p kids
  | None => kids
  end.

Definition unmaskEffect (e : element) : element :=
  withChildren removeOverlay
    (withStyle (λ st, foldl (λ st p, delete p st) st unmaskedProperties)
       (withClassList (filter (λ c, c ≠ "sb-masked")) e)).

(** The element has no [.sb-overlay] element below it. *)
Definition noOverlayBelow (e : element) : Prop :=
  queryNodes (hasClass "sb-overlay") (children e) = None.

Definition isMasked (e : element) : bool := hasToken "sb-masked" (classList e).

(** [m] turns the element [e] at [h] into [e'] and changes nothing else. *)
Definition changes (m : M unit) (h : handle) (e e' : element) : Prop :=
  ∀ σ : page, σ !! h = Some e → m σ = Normal tt (<[h := e']> σ).

(** [burst wait prev times]: each trigger of [times] comes less than [wait]
    after the one before it, the first of them after the trigger at
    [prev]. *)
Fixpoint burst (wait prev : Z) (times : list Z) : Prop :=
  match times with
  | [] => True
  | now :: times' => (prev ≤ now < prev + wait)%Z ∧ burst wait now times'
  end.

(** At most one timer is pending, and it is the one [t] names. *)
Definition onePending (s : scheduler) : Prop :=
  Timers.pending (timers s) = []
  ∨ ∃ i d, t s = Some i ∧ Timers.pending (timers s) = [Timers.Timer i d].

(** ** Control surfaces

    popup.js, options.js and background.js edit the stored settings; the
    content script reads them into the snapshot its gate and scan use. *)

Definition withKeywords (ks : list text) (state : settings) : settings :=
  let 'Settings en sn _ md it pa hd rules := state in
  Settings en sn ks md it pa hd rules.

Definition withSnoozeUntil (until : Z) (state : settings) : settings :=
  let 'Settings en _ ks md it pa hd rules := state in
  Settings en until ks md it pa hd rules.


(** [new Set(list)], [set.add(x)] and [[...set]]: the values in the order
    they were first added. *)
Definition setAdd (set : list text) (x : text) : list text :=
  if bool_decide (x ∈ set) then set else set ++ [x].

Definition newSet (l : list text) : list text := foldl setAdd [] l.

(** popup.js, the add button, and background.js, [sb-add-selection]: the
    keywords written to the store for an input; a blank input writes
    nothing. *)
Definition addKeyword (input : text) (stored : list text) : list text :=
  let term := trim input in
  if negb (nonEmpty term) then stored
  else setAdd (newSet stored) term.

(** popup.js, the remove button of a keyword:
    [list.filter(x => x !== term)]. *)
Definition removeKeyword (term : text) (shown : list text) : list text :=
  filter (λ x, x ≠ term) shown.


(** popup.js, the snooze button, and background.js, [sb-snooze-30]:
    [Date.now() + 30 * 60 * 1000]. *)
Definition snooze30 (now : Z) (state : settings) : settings :=
  withSnoozeUntil (now + 30 * 60 * 1000)%Z state.

(** options.js:
    [String(els.host.value || '').trim().replace(/^https?:\/\//,'').replace(/\/$/,'')]. *)
Definition stripScheme (s : text) : text :=
  match s with
  | "h" :: "t" :: "t" :: "p" :: ":" :: "/" :: "/" :: rest => rest
  | "h" :: "t" :: "t" :: "p" :: "s" :: ":" :: "/" :: "/" :: rest => rest
  | _ => s
  end%char.

Definition stripFinalSlash (s : text) : text :=
  match rev s with
  | "/"%char :: init => rev init
  | _ => s
  end.

Definition normalizeHost (input : text) : text :=
  stripFinalSlash (stripScheme (trim input)).






(** [chrome.storage.sync.set(obj)]: the keys of [obj] are written, the other
    keys stay. *)
Definition storageSet (stored obj : object) : object := assign stored obj.

(** background.js, the [onInstalled] listener:
    [merged = { ...DEFAULTS, ...current }], then [set(merged)]. *)
Definition onInstalled (stored : object) : object :=
  storageSet stored (assign DEFAULTS (storageGet stored DEFAULTS)).

(** The keyword list under the popup and the context menu: the list in the
    store, and the list the popup shows, which its remove buttons close
    over.  Each action of the popup writes the store and renders what it
    wrote; [sb-add-selection] writes the store only. *)
Record keywordView : Type :=
  KeywordView { storedKeywords : list text; shownKeywords : list text }.

Inductive keywordAction : Type :=
| AddClick (input : text)
| RemoveClick (term : text)
| ClearClick
| AddSelection (selectionText : text).

Definition keywordStep (v : keywordView) (a : keywordAction) : keywordView :=
  match a with
  | AddClick input =>
      if negb (nonEmpty (trim input)) then v
      else let arr := addKeyword input (storedKeywords v) in KeywordView arr arr
  | RemoveClick term =>
      let next := removeKeyword term (shownKeywords v) in KeywordView next next
  | ClearClick => KeywordView [] []
  | AddSelection selectionText =>
      KeywordView (addKeyword selectionText (storedKeywords v)) (shownKeywords v)
  end.

(** ** Scan, stated *)

(** What [maskElement] makes of an element, masked already or not. *)
Definition masked (state : settings) (e : element) : element :=
  if isMasked e then e
  else maskEffect (mode state) (intensity state) (highlightDebug state) e.


(** One turn of the loop of [scan], as a function on the page, and
    [targets re h tn]: the turn for [tn] calls [maskElement] on the element
    at [h]. *)
Definition scanStep (state : settings) (re : RegExp.t) (σ : page) (tn : textNode)
  : page :=
  match RegExp.test re (nodeValue tn), parentElement tn with
  | Some true, Ref h => alter (masked state) h σ
  | _, _ => σ
  end.

Definition targets (re : RegExp.t) (h : handle) (tn : textNode) : bool :=
  match RegExp.test re (nodeValue tn), parentElement tn with
  | Some true, Ref h' => bool_decide (h' = h)
  | _, _ => false
  end.

(** ** Scan scheduler, stated *)



(** Case analysis on the 256 code units. *)
Ltac each_char c := destruct c as [[] [] [] [] [] [] [] []].

(** * Proofs *)

Local Close Scope string_scope.
Local Open Scope char_scope.

(** ** Characters *)

Lemma inEscapeClass_syntaxCharacter c :
  inEscapeClass c = RegExp.syntaxCharacter c.
Proof. each_char c; reflexivity. Qed.

Lemma patternCharacter_plain c :
  RegExp.syntaxCharacter c = false →
  RegExp.patternCharacter c = Some (RegExp.TChar c) ∧ Ascii.eqb c "\" = false.
Proof. each_char c; intros H; vm_compute in H |- *; first [discriminate H | done]. Qed.

Lemma isWordChar_toUpperCase c :
  RegExp.isWordChar (RegExp.toUpperCase c) = RegExp.isWordChar c.
Proof. each_char c; reflexivity. Qed.

Lemma toUpperCase_idemp c :
  RegExp.toUpperCase (RegExp.toUpperCase c) = RegExp.toUpperCase c.
Proof. each_char c; reflexivity. Qed.

(** ** The pattern [buildRegex] writes compiles to its keywords *)

Section Compile.
Import RegExp.

(** Escaped, a keyword is read back character for character. *)
Lemma tokenize_escapeRegExp k rest :
  tokenize (escapeRegExp k ++ rest) =
  (λ ts, (TChar <$> k) ++ ts) <$> tokenize rest.
Proof.
  induction k as [|c k IH]; simpl.
  - by destruct (tokenize rest).
  - unfold escapeRegExp in *. cbn [mbind list_bind].
    rewrite inEscapeClass_syntaxCharacter.
    destruct (syntaxCharacter c) eqn:Hc; rewrite <- app_assoc; simpl.
    + unfold atomEscape. rewrite Hc, IH. by destruct (tokenize rest).
    + destruct (patternCharacter_plain c Hc) as [-> ->].
      rewrite IH. by destruct (tokenize rest).
Qed.

Lemma tokenize_join ks rest :
  tokenize (join (txt "|") (escapeRegExp <$> ks) ++ rest) =
  (λ ts, alternativesTokens ks ++ ts) <$> tokenize rest.
Proof.
  induction ks as [|k ks IH].
  - simpl. by destruct (tokenize rest).
  - destruct ks as [|k' ks].
    + simpl. apply tokenize_escapeRegExp.
    + change (join (txt "|") (escapeRegExp <$> k :: k' :: ks))
        with (escapeRegExp k ++ txt "|" ++ join (txt "|") (escapeRegExp <$> k' :: ks)).
      rewrite <- !app_assoc, tokenize_escapeRegExp.
      change (txt "|" ++ ?x) with ("|" :: x).
      cbn [tokenize]. change (Ascii.eqb "|" "\") with false. cbv iota.
      change (patternCharacter "|") with (Some TBar).
      rewrite IH. destruct (tokenize rest); [|done].
      simpl. by rewrite <- app_assoc.
Qed.

Lemma parse_chars k ts f stack :
  parse ((TChar <$> k) ++ ts) f stack =
  parse ts (Frame (closed f) (rev (Chr <$> k) ++ current f)) stack.
Proof.
  revert f. induction k as [|c k IH]; intros [cl cur]; [done|].
  simpl. rewrite IH. simpl. by rewrite <- app_assoc.
Qed.

Lemma parse_alternatives ks ts cl g stack :
  ks ≠ [] →
  parse (alternativesTokens ks ++ TClose :: ts) (Frame cl []) (g :: stack) =
  parse ts (push (Group (rev cl ++ ((λ k : text, Chr <$> k) <$> ks))) g) stack.
Proof.
  revert cl. induction ks as [|k ks IH]; intros cl Hne; [done|].
  destruct ks as [|k' ks].
  - simpl. rewrite parse_chars. simpl.
    unfold finish. simpl. by rewrite app_nil_r, rev_involutive.
  - change (alternativesTokens (k :: k' :: ks))
      with ((TChar <$> k) ++ TBar :: alternativesTokens (k' :: ks)).
    rewrite <- app_assoc, parse_chars. simpl app at 1.
    cbn [parse]. unfold nextAlternative. cbn [closed current].
    rewrite app_nil_r, rev_involutive, IH by done.
    do 3 f_equal. simpl. by rewrite <- app_assoc.
Qed.

End Compile.

Section Matching.
Import RegExp.
Variable s : text.

Lemma elem_of_guard b (i j : nat) : j ∈ guard b i ↔ b = true ∧ j = i.
Proof.
  destruct b; simpl; split.
  - by intros ->%list_elem_of_singleton.
  - intros [_ ->]. left.
  - by intros ?%elem_of_nil.
  - by intros [? _].
Qed.

Lemma elem_of_chars k acc j' :
  j' ∈ foldl (λ e r, e ≫= ends true s r) acc (Chr <$> k) ↔
  ∃ j, j ∈ acc ∧ occursAtb k s j = true ∧ j' = j + length k.
Proof.
  revert acc. induction k as [|c k IH]; intros acc; simpl.
  - split; [intros H; exists j'; auto with lia|].
    intros (j & Hj & _ & ->). by rewrite Nat.add_0_r.
  - rewrite IH. setoid_rewrite list_elem_of_bind. split.
    + intros (j & (i & Hj & Hi) & Hocc & ->). exists i.
      destruct (s !! i) as [d|]; [|by apply not_elem_of_nil in Hj].
      apply elem_of_guard in Hj as [Heq ->].
      rewrite Heq, Hocc. auto with lia.
    + intros (i & Hi & Hocc & ->).
      destruct (s !! i) as [d|] eqn:Hd; [|done].
      apply andb_true_iff in Hocc as [Heq Hocc].
      exists (S i). split_and!; [|done|lia].
      exists i. rewrite Hd. split; [|done]. by apply elem_of_guard.
Qed.

Lemma elem_of_alternatives ks i j' :
  j' ∈ ends true s (Group ((λ k : text, Chr <$> k) <$> ks)) i ↔
  ∃ k, k ∈ ks ∧ occursAtb k s i = true ∧ j' = i + length k.
Proof.
  cbn [ends]. rewrite list_elem_of_bind. unfold sequence. split.
  - intros (alt & Hj & Halt). apply list_elem_of_fmap in Halt as (k & -> & Hk).
    apply elem_of_chars in Hj as (j & Hj & Hocc & ->).
    apply list_elem_of_singleton in Hj as ->. eauto.
  - intros (k & Hk & Hocc & ->). exists (Chr <$> k). split.
    + apply elem_of_chars. exists i. split; [set_solver | done].
    + apply list_elem_of_fmap. eauto.
Qed.

Lemma matchesAt_true d i :
  matchesAt true s d i = true ↔
  ∃ alt j, alt ∈ d ∧ j ∈ sequence (ends true s) alt i.
Proof.
  unfold matchesAt.
  destruct (d ≫= _) as [|j l] eqn:E.
  - split; [done|]. intros (alt & j & Halt & Hj).
    assert (j ∈ d ≫= (λ alt, sequence (ends true s) alt i)) as Hin
      by (apply list_elem_of_bind; eauto).
    rewrite E in Hin. by apply not_elem_of_nil in Hin.
  - split; [intros _|done].
    assert (j ∈ d ≫= (λ alt, sequence (ends true s) alt i)) as Hin
      by (rewrite E; left).
    apply list_elem_of_bind in Hin as (alt & ? & ?). eauto.
Qed.

(** Without boundaries: [(k1|k2|...)]. *)
Lemma matchesAt_partial ks i :
  matchesAt true s [[Group ((λ k : text, Chr <$> k) <$> ks)]] i = true ↔
  ∃ k, k ∈ ks ∧ occursAtb k s i = true.
Proof.
  rewrite matchesAt_true. split.
  - intros (alt & j & Halt & Hj). apply list_elem_of_singleton in Halt as ->.
    unfold sequence in Hj. cbn [foldl] in Hj. rewrite bind_singleton in Hj.
    apply elem_of_alternatives in Hj as (k & ? & ? & _). eauto.
  - intros (k & Hk & Hocc). eexists _, (i + length k). split; [left|].
    unfold sequence. cbn [foldl]. rewrite bind_singleton.
    apply elem_of_alternatives. eauto.
Qed.

(** With boundaries: [\b(k1|k2|...)\b]. *)
Lemma matchesAt_whole ks i :
  matchesAt true s [[WordB; Group ((λ k : text, Chr <$> k) <$> ks); WordB]] i = true ↔
  ∃ k, k ∈ ks ∧ occursAtb k s i = true ∧
       isWordBoundary s i = true ∧ isWordBoundary s (i + length k) = true.
Proof.
  rewrite matchesAt_true. split.
  - intros (alt & j & Halt & Hj). apply list_elem_of_singleton in Halt as ->.
    unfold sequence in Hj. cbn [foldl] in Hj. rewrite bind_singleton in Hj.
    apply list_elem_of_bind in Hj as (j2 & Hj & Hj2).
    apply list_elem_of_bind in Hj2 as (j1 & Hj2 & Hj1).
    cbn [ends] in Hj, Hj1.
    apply elem_of_guard in Hj1 as [Hb1 ->]. apply elem_of_guard in Hj as [Hb2 ->].
    apply elem_of_alternatives in Hj2 as (k & ? & ? & ->). eauto.
  - intros (k & Hk & Hocc & Hb1 & Hb2). eexists _, (i + length k). split; [left|].
    unfold sequence. cbn [foldl]. rewrite bind_singleton.
    apply list_elem_of_bind. exists (i + length k). split.
    + cbn [ends]. by apply elem_of_guard.
    + apply list_elem_of_bind. exists i. split.
      * apply elem_of_alternatives. eauto.
      * cbn [ends]. by apply elem_of_guard.
Qed.

Lemma occursAtb_lt k i : k ≠ [] → occursAtb k s i = true → i < length s.
Proof.
  destruct k as [|c k]; [done|]. intros _. simpl.
  destruct (s !! i) eqn:E; [|done]. intros _. by eapply lookup_lt_Some.
Qed.

End Matching.

Lemma occursAtb_take k s i :
  occursAtb k s i = true ↔
  RegExp.toUpperCase <$> take (length k) (drop i s) = RegExp.toUpperCase <$> k.
Proof.
  revert i. induction k as [|c k IH]; intros i; [done|]. simpl.
  destruct (s !! i) as [d|] eqn:E.
  - rewrite (drop_S _ _ _ E). cbn [length firstn]. rewrite !fmap_cons.
    rewrite andb_true_iff, IH, Ascii.eqb_eq.
    split; [intros [H1 H2]; by f_equal | by intros [= H1 H2]].
  - apply lookup_ge_None in E. by rewrite drop_ge.
Qed.

Lemma occursAtb_spec k s i : k ≠ [] → occursAtb k s i = true ↔ occursAt k s i.
Proof.
  intros Hk. split.
  - intros H. pose proof (occursAtb_lt s k i Hk H) as Hi.
    apply occursAtb_take in H.
    exists (take i s), (take (length k) (drop i s)), (drop (length k) (drop i s)).
    rewrite !take_drop. split_and!; [done| |done].
    rewrite length_take. lia.
  - intros (pre & mid & post & -> & <- & H). apply occursAtb_take.
    rewrite drop_app_length. unfold sameUpToCase in H.
    assert (length mid = length k) as <-
      by (apply (f_equal length) in H; by rewrite !length_fmap in H).
    by rewrite take_app_length.
Qed.

(** ** [trim] *)

Lemma trimStart_suffix s :
  ∃ ws, s = ws ++ trimStart s ∧ Forall (λ c, isWhiteSpace c = true) ws.
Proof.
  induction s as [|c s (ws & Hs & Hws)]; [by exists []|]. simpl.
  destruct (isWhiteSpace c) eqn:Hc; [|by exists []].
  exists (c :: ws). split; [by rewrite Hs at 1 | by constructor].
Qed.

Lemma trimStart_head s c rest : trimStart s = c :: rest → isWhiteSpace c = false.
Proof.
  induction s as [|d s IH]; [done|]. simpl.
  destruct (isWhiteSpace d) eqn:Hd; [done|]. by intros [= <- _].
Qed.

Lemma trimEnd_prefix s :
  ∃ ws, s = trimEnd s ++ ws ∧ Forall (λ c, isWhiteSpace c = true) ws.
Proof.
  unfold trimEnd. destruct (trimStart_suffix (rev s)) as (ws & Hs & Hws).
  exists (rev ws). split; [|by apply Forall_rev].
  rewrite <- rev_app_distr, <- Hs. by rewrite rev_involutive.
Qed.

Lemma trimEnd_last s c init : trimEnd s = init ++ [c] → isWhiteSpace c = false.
Proof.
  unfold trimEnd. intros H. apply (f_equal (@rev ascii)) in H.
  rewrite rev_involutive, rev_app_distr in H. simpl in H.
  by eapply trimStart_head.
Qed.

Lemma trim_spec s : isTrimOf (trim s) s.
Proof.
  unfold isTrimOf, trim.
  destruct (trimStart_suffix s) as (ws1 & Hs1 & Hws1).
  destruct (trimEnd_prefix (trimStart s)) as (ws2 & Hs2 & Hws2).
  split_and!.
  - exists ws1, ws2. split_and!; [|done..]. by rewrite <- Hs2.
  - intros c rest H. rewrite H in Hs2. by eapply trimStart_head.
  - apply trimEnd_last.
Qed.

(** ** The keywords [buildRegex] keeps *)

Lemma elem_of_keptKeywords ks k :
  k ∈ keptKeywords ks ↔ k ≠ [] ∧ ∃ k0, k0 ∈ ks ∧ k = trim k0.
Proof.
  unfold keptKeywords. rewrite list_elem_of_filter, list_elem_of_fmap.
  destruct k; simpl; naive_solver.
Qed.

Lemma buildRegex_None ks partial :
  buildRegex ks partial = None ↔ keptKeywords ks = [].
Proof.
  unfold buildRegex. rewrite length_fmap.
  destruct ks as [|k0 ks]; [done|]. cbn [length Nat.eqb].
  destruct (keptKeywords (k0 :: ks)); simpl; [done|]. by destruct partial.
Qed.

Section CompileBuilt.
Import RegExp.

Lemma tokenize_open p : tokenize ("(" :: p) = (TOpen ::.) <$> tokenize p.
Proof. simpl. by destruct (tokenize p). Qed.

Lemma tokenize_wordb p : tokenize ("\" :: "b" :: p) = (TWordB ::.) <$> tokenize p.
Proof. simpl. by destruct (tokenize p). Qed.

Lemma compile_buildRegex ks partial r :
  buildRegex ks partial = Some r →
  keptKeywords ks ≠ []
  ∧ ignoreCase r = true
  ∧ compile (source r) = Some (keywordProgram partial (keptKeywords ks)).
Proof.
  intros H. assert (keptKeywords ks ≠ []) as Hne.
  { intros E. apply (buildRegex_None ks partial) in E. congruence. }
  split; [done|]. unfold buildRegex in H. rewrite length_fmap in H.
  destruct (length ks =? 0)%nat; [done|].
  destruct (length (keptKeywords ks) =? 0)%nat; [done|].
  injection H as <-. split; [done|]. cbn [source]. unfold compile.
  destruct partial.
  - change (txt "(" ++ ?x) with ("(" :: x).
    rewrite tokenize_open, tokenize_join. simpl.
    rewrite (parse_alternatives _ [] []) by done. reflexivity.
  - change (txt "\b(" ++ ?x) with ("\" :: "b" :: "(" :: x).
    rewrite tokenize_wordb, tokenize_open, tokenize_join. simpl.
    rewrite (parse_alternatives _ [TWordB] []) by done. reflexivity.
Qed.

End CompileBuilt.

(** ** What a built matcher tests *)

Section Test.
Import RegExp.

Lemma matchesAt_keywordProgram s partial ks i :
  matchesAt true s (keywordProgram partial ks) i = true ↔
  ∃ k, k ∈ ks ∧ occursAtb k s i = true
    ∧ (partial = false →
       isWordBoundary s i = true ∧ isWordBoundary s (i + length k) = true).
Proof.
  destruct partial; unfold keywordProgram, literalAlternatives.
  - rewrite matchesAt_partial. naive_solver.
  - rewrite matchesAt_whole. naive_solver.
Qed.

Lemma test_buildRegex ks partial r s :
  buildRegex ks partial = Some r →
  ∃ b, test r s = Some b ∧ (b = true ↔ keywordMatch partial (keptKeywords ks) s).
Proof.
  intros (Hne & Hic & Hc)%compile_buildRegex. unfold test. rewrite Hc, Hic.
  eexists. split; [done|]. rewrite existsb_exists. unfold keywordMatch. split.
  - intros (i & _ & (k & Hk & Hocc & Hb)%matchesAt_keywordProgram).
    exists k, i. split_and!; [done| |done].
    apply occursAtb_spec; [|done]. apply elem_of_keptKeywords in Hk. tauto.
  - intros (k & i & Hk & Hocc & Hb).
    assert (k ≠ []) as Hk0 by (apply elem_of_keptKeywords in Hk; tauto).
    apply occursAtb_spec in Hocc; [|done]. exists i. split.
    + apply in_seq. pose proof (occursAtb_lt s k i Hk0 Hocc). lia.
    + apply matchesAt_keywordProgram. eauto.
Qed.

End Test.

(** ** Letter case of the text *)

Lemma sameUpToCase_lookup s s' i :
  sameUpToCase s s' →
  RegExp.toUpperCase <$> s !! i = RegExp.toUpperCase <$> s' !! i.
Proof. unfold sameUpToCase. intros H. by rewrite <- !list_lookup_fmap, H. Qed.

Lemma sameUpToCase_wordAt s s' i :
  sameUpToCase s s' → RegExp.wordAt s i = RegExp.wordAt s' i.
Proof.
  intros H%(sameUpToCase_lookup _ _ i). unfold RegExp.wordAt.
  destruct (s !! i) as [c|], (s' !! i) as [d|]; try done.
  injection H as H. by rewrite <- (isWordChar_toUpperCase c), H, isWordChar_toUpperCase.
Qed.

Lemma sameUpToCase_isWordBoundary s s' i :
  sameUpToCase s s' → RegExp.isWordBoundary s i = RegExp.isWordBoundary s' i.
Proof.
  intros H. unfold RegExp.isWordBoundary, RegExp.wordBefore.
  rewrite (sameUpToCase_wordAt s s' i H).
  destruct i as [|j]; [done|]. by rewrite (sameUpToCase_wordAt s s' j H).
Qed.

Lemma sameUpToCase_occursAt k s s' i :
  sameUpToCase s s' → occursAt k s i → occursAt k s' i.
Proof.
  unfold occursAt, sameUpToCase. intros H (pre & mid & post & -> & <- & Hmid).
  rewrite !fmap_app in H. symmetry in H.
  apply fmap_app_inv in H as (pre' & rest & Hpre & H & ->). symmetry in H.
  apply fmap_app_inv in H as (mid' & post' & Hm & Hp & ->).
  exists pre', mid', post'. split_and!; [done| |congruence].
  apply (f_equal length) in Hpre. by rewrite !length_fmap in Hpre.
Qed.

Lemma sameUpToCase_keywordMatch partial ks s s' :
  sameUpToCase s s' → keywordMatch partial ks s → keywordMatch partial ks s'.
Proof.
  intros H (k & i & Hk & Hocc & Hb). exists k, i. split_and!; [done|..].
  - by eapply sameUpToCase_occursAt.
  - by rewrite <- !(sameUpToCase_isWordBoundary s s').
Qed.

(** ** The page monad *)

Local Close Scope char_scope.
Local Open Scope string_scope.
Local Open Scope list_scope.

Section Page.
Implicit Types (σ : page) (e : element) (h : handle).

Lemma bind_Normal {A B} (m : M A) (k : A → M B) σ a σ' :
  m σ = Normal a σ' → (m ≫= k) σ = k a σ'.
Proof. unfold mbind, M_bind. by intros ->. Qed.

Lemma read_Ref {A} h (get : element → A) σ e :
  σ !! h = Some e → read (Ref h) get σ = Normal (get e) σ.
Proof. unfold read. by intros ->. Qed.

Lemma update_Ref h f σ e :
  σ !! h = Some e → update (Ref h) f σ = Normal tt (<[h := f e]> σ).
Proof. unfold update. by intros ->. Qed.

Lemma changes_update h f e : changes (update (Ref h) f) h e (f e).
Proof. intros σ. apply update_Ref. Qed.

Lemma changes_ret h e : changes (ret tt) h e e.
Proof. intros σ H. unfold ret, mret, M_ret. by rewrite insert_id. Qed.

Lemma changes_seq m1 m2 h e e1 e2 :
  changes m1 h e e1 → changes m2 h e1 e2 → changes (m1;; m2) h e e2.
Proof.
  intros H1 H2 σ H. rewrite (bind_Normal _ _ _ _ _ (H1 σ H)).
  rewrite (H2 _) by apply lookup_insert_eq.
  by rewrite insert_insert_eq.
Qed.

Lemma changes_to m h e e1 e2 : changes m h e e1 → e1 = e2 → changes m h e e2.
Proof. by intros H <-. Qed.

Lemma changes_read {A} h (get : element → A) (k : A → M unit) e e' :
  changes (k (get e)) h e e' → changes (read (Ref h) get ≫= k) h e e'.
Proof. intros Hk σ H. rewrite (bind_Normal _ _ _ _ _ (read_Ref h get σ e H)). by apply Hk. Qed.

Lemma changes_classList_add_new h tok e :
  hasToken tok (classList e) = false →
  changes (classList_add (Ref h) tok) h e
          (withClassList (λ cs, (cs ++ [tok])%list) e).
Proof.
  intros Hm σ H. unfold classList_add. rewrite (update_Ref _ _ _ _ H).
  destruct e. cbn [withClassList classList] in *. by rewrite Hm.
Qed.

End Page.

(** ** The masking engine computes [maskEffect] and [unmaskEffect] *)

Lemma maskElement_masked h mode intensity debug (σ : page) e :
  σ !! h = Some e → isMasked e = true →
  maskElement (Ref h) mode intensity debug σ = Normal tt σ.
Proof.
  intros He Hm. unfold maskElement, classList_contains. cbn [truthy negb].
  rewrite (bind_Normal _ _ _ _ _ (read_Ref h _ σ e He)).
  unfold isMasked in Hm. by rewrite Hm.
Qed.

Lemma maskElement_unmasked h mode intensity debug (σ : page) e :
  σ !! h = Some e → isMasked e = false →
  maskElement (Ref h) mode intensity debug σ =
  Normal tt (<[h := maskEffect mode intensity debug e]> σ).
Proof.
  intros He Hm. unfold maskElement, classList_contains. cbn [truthy negb].
  rewrite (bind_Normal _ _ _ _ _ (read_Ref h _ σ e He)).
  unfold isMasked in Hm. rewrite Hm.
  revert σ He. change (changes ?m h e ?e') with (changes m h e e').
  eapply changes_seq; [by apply changes_classList_add_new|].
  unfold dataset_set, style_setProperty, appendChild, addEventListener.
  unfold maskEffect, modeEffect, important'.
  destruct (String.eqb mode "blackout"), (String.eqb mode "collapse"), debug;
    (eapply changes_to;
       [repeat first [apply changes_update | apply changes_ret | eapply changes_seq]|]);
    by destruct e.
Qed.

Lemma unmaskElement_Ref h (σ : page) e :
  σ !! h = Some e →
  unmaskElement (Ref h) σ = Normal tt (<[h := unmaskEffect e]> σ).
Proof.
  unfold unmaskElement. cbn [truthy negb]. revert σ.
  change (changes ?m h e ?e') with (changes m h e e').
  unfold classList_remove, style_removeProperty, querySelector, removeNode.
  do 9 (eapply changes_seq; [apply changes_update|]).
  apply changes_read.
  unfold unmaskEffect, removeOverlay. destruct e as [cl ds st cs ls kids].
  cbn [withChildren withStyle withClassList children foldl unmaskedProperties].
  destruct (queryNodes (hasClass "sb-overlay") kids) as [p|].
  - eapply changes_to; [apply changes_update | done].
  - apply changes_ret.
Qed.

(** ** Query and removal of the overlay *)

Section Overlay.
Variable sel : node → bool.

Lemma firstMatch_snoc kids n i :
  firstMatch sel (queryBelow sel) kids i = None → sel n = true →
  firstMatch sel (queryBelow sel) (kids ++ [n]) i = Some [i + length kids].
Proof.
  revert i. induction kids as [|k kids IH]; intros i Hnone Hn; simpl in *.
  - by rewrite Hn, Nat.add_0_r.
  - destruct (sel k); [done|]. destruct (queryBelow sel k); [done|].
    rewrite IH by done. do 2 f_equal. lia.
Qed.

Lemma queryNodes_snoc kids n :
  queryNodes sel kids = None → sel n = true →
  queryNodes sel (kids ++ [n]) = Some [length kids].
Proof. intros. unfold queryNodes. by rewrite firstMatch_snoc. Qed.

End Overlay.

Lemma removeAt_last kids n : removeAt [length kids] (kids ++ [n]) = kids.
Proof. cbn [removeAt]. by rewrite delete_middle, app_nil_r. Qed.

Lemma removeOverlay_snoc kids :
  queryNodes (hasClass "sb-overlay") kids = None →
  removeOverlay (kids ++ [overlay]) = kids.
Proof.
  intros H. unfold removeOverlay.
  rewrite (queryNodes_snoc _ _ overlay H) by done. apply removeAt_last.
Qed.

Lemma removeOverlay_none kids :
  queryNodes (hasClass "sb-overlay") kids = None → removeOverlay kids = kids.
Proof. intros H. unfold removeOverlay. by rewrite H. Qed.

(** ** Facts about the two effects *)

Lemma hasToken_snoc tok cs : hasToken tok (cs ++ [tok]) = true.
Proof. unfold hasToken. apply bool_decide_eq_true. set_solver. Qed.

Lemma isMasked_maskEffect mode intensity debug e :
  isMasked (maskEffect mode intensity debug e) = true.
Proof.
  unfold isMasked, maskEffect, modeEffect. destruct e.
  destruct (String.eqb mode "blackout"), (String.eqb mode "collapse"), debug;
    cbn; apply (hasToken_snoc "sb-masked").
Qed.

Lemma isMasked_unmaskEffect e : isMasked (unmaskEffect e) = false.
Proof.
  unfold isMasked, unmaskEffect, hasToken. destruct e. cbn.
  apply bool_decide_eq_false. rewrite list_elem_of_filter. tauto.
Qed.

Lemma children_maskEffect mode intensity debug e :
  children (maskEffect mode intensity debug e) =
  if String.eqb mode "blackout" then children e
  else if String.eqb mode "collapse" then children e ++ [overlay]
  else children e.
Proof.
  unfold maskEffect, modeEffect. destruct e.
  by destruct (String.eqb mode "blackout"), (String.eqb mode "collapse"), debug.
Qed.

Lemma children_unmaskEffect e :
  children (unmaskEffect e) = removeOverlay (children e).
Proof. by destruct e. Qed.

Lemma style_unmaskEffect e p :
  style (unmaskEffect e) !! p =
  if bool_decide (p ∈ unmaskedProperties) then None else style e !! p.
Proof.
  destruct e as [cs ds st cst ls kids].
  cbn [unmaskEffect withChildren withStyle withClassList style foldl unmaskedProperties].
  case_bool_decide as Hp.
  - repeat (apply elem_of_cons in Hp as [->|Hp]; [by simplify_map_eq|]).
    by apply elem_of_nil in Hp.
  - rewrite !lookup_delete_ne; [done|..]; intros <-; apply Hp; set_solver.
Qed.

(** ** Masking engine: the claims *)

(** An element with nothing on it, for the examples. *)
Example mask_blur_8 :
  maskElement (Ref 0) "blur" (Num 8) false {[ 0 := Element [] ∅ ∅ None [] [] ]} =
  Normal tt {[ 0 := Element ["sb-masked"] {[ "sbMaskMode" := "blur" ]}
     {[ "filter" := Declaration (BlurPx 8) true;
        "text-shadow" := Declaration (Keyword "0 0 12px rgba(0,0,0,.5)") true;
        "cursor" := Declaration (Keyword "pointer") true ]} None [Reveal true] [] ]}.
Proof. vm_compute. reflexivity. Qed.

(** Reading a property of [null] throws; the guards of [maskElement] and
    [unmaskElement] come first. *)
Example classList_of_null σ : classList_contains Null "sb-masked" σ = Throw TypeError.
Proof. reflexivity. Qed.

(** C4.  [maskElement] on an element that carries the mask class returns
    at once and leaves the page as it is, whatever the mode, intensity and
    debug flag: style, overlay children and [dataset.sbMaskMode] of the
    element are the ones it had.  In particular a second [maskElement] after
    a first one changes nothing. *)
Theorem maskElement_idempotent h (σ : page) e mode intensity debug :
  σ !! h = Some e → isMasked e = true →
  maskElement (Ref h) mode intensity debug σ = Normal tt σ
  ∧ ∀ mode0 intensity0 debug0 (σ0 : page) e0, σ0 !! h = Some e0 →
      (maskElement (Ref h) mode0 intensity0 debug0;;
       maskElement (Ref h) mode intensity debug) σ0 =
      maskElement (Ref h) mode0 intensity0 debug0 σ0.
Proof.
  intros He Hm. split; [by eapply maskElement_masked|].
  intros mode0 intensity0 debug0 σ0 e0 He0.
  destruct (isMasked e0) eqn:Hm0.
  - rewrite (bind_Normal _ _ _ _ _ (maskElement_masked h mode0 _ _ _ _ He0 Hm0)).
    rewrite (maskElement_masked h mode0 _ _ _ _ He0 Hm0).
    by eapply maskElement_masked.
  - rewrite (bind_Normal _ _ _ _ _ (maskElement_unmasked h mode0 intensity0 debug0 _ _ He0 Hm0)).
    rewrite (maskElement_unmasked h mode0 intensity0 debug0 _ _ He0 Hm0).
    eapply maskElement_masked; [apply lookup_insert_eq|].
    apply isMasked_maskEffect.
Qed.

Lemma maskElement_idempotent_witness :
  let e := Element ["card"; "sb-masked"] {[ "sbMaskMode" := "blur" ]}
             {[ "filter" := Declaration (BlurPx 8) true ]} None [Reveal true] [] in
  maskElement (Ref 0) "collapse" (Num 40) true {[ 0 := e ]} = Normal tt {[ 0 := e ]}
  ∧ ∀ mode0 intensity0 debug0 (σ0 : page) e0, σ0 !! 0 = Some e0 →
      (maskElement (Ref 0) mode0 intensity0 debug0;;
       maskElement (Ref 0) "collapse" (Num 40) true) σ0 =
      maskElement (Ref 0) mode0 intensity0 debug0 σ0.
Proof.
  intros e. apply (maskElement_idempotent 0 {[ 0 := e ]} e "collapse" (Num 40) true).
  - reflexivity.
  - reflexivity.
Defined.

(** C10.  With [null] or [undefined] for the element, [maskElement] and
    [unmaskElement] return normally and leave the page as it is, for every
    mode, intensity and debug flag. *)
Theorem mask_unmask_null_safe mode intensity debug (σ : page) :
  maskElement Null mode intensity debug σ = Normal tt σ
  ∧ maskElement Undefined mode intensity debug σ = Normal tt σ
  ∧ unmaskElement Null σ = Normal tt σ
  ∧ unmaskElement Undefined σ = Normal tt σ.
Proof.
  unfold maskElement, unmaskElement. cbn [truthy negb].
  split_and!; reflexivity.
Qed.

(** C7, as the code has it.  In blur mode, and for every mode value other
    than [blackout] and [collapse], [maskElement] sets [filter] to a blur
    whose radius in pixels is [max(2, intensity)] for every intensity other
    than 0, and 8 when the intensity is 0 or NaN ([Number(intensity) || 8]);
    so the radius is always at least 2, and 8 for intensity 8. *)
Theorem blur_radius h (σ : page) e mode intensity debug :
  σ !! h = Some e → isMasked e = false →
  mode ≠ "blackout" → mode ≠ "collapse" →
  ∃ e' r,
    maskElement (Ref h) mode intensity debug σ = Normal tt (<[h := e']> σ)
    ∧ style e' !! "filter" = Some (Declaration (BlurPx r) true)
    ∧ (2 ≤ r)%Z
    ∧ (∀ n, intensity = Num n → n ≠ 0%Z → r = Z.max 2 n)
    ∧ (intensity = Num 0 ∨ intensity = NaN → r = 8%Z)
    ∧ (intensity = Num 8 → r = 8%Z).
Proof.
  intros He Hm Hb Hc.
  exists (maskEffect mode intensity debug e), (Z.max 2 (orElse intensity 8)).
  split; [by apply maskElement_unmasked|]. split_and!.
  - apply String.eqb_neq in Hb, Hc.
    unfold maskEffect, modeEffect, important'. rewrite Hb, Hc.
    destruct e, debug; cbn [withChildren withStyle withClassList withDataset
      withListeners style]; by simplify_map_eq.
  - lia.
  - intros n -> Hn. cbn [orElse]. by destruct (Z.eqb_spec n 0).
  - by intros [-> | ->].
  - by intros ->.
Qed.

Lemma blur_radius_witness :
  ∃ e' r,
    maskElement (Ref 0) "blur" (Num 8) false {[ 0 := Element [] ∅ ∅ None [] [] ]} =
      Normal tt (<[0 := e']> {[ 0 := Element [] ∅ ∅ None [] [] ]})
    ∧ style e' !! "filter" = Some (Declaration (BlurPx r) true)
    ∧ (2 ≤ r)%Z
    ∧ (∀ n, Num 8 = Num n → n ≠ 0%Z → r = Z.max 2 n)
    ∧ (Num 8 = Num 0 ∨ Num 8 = NaN → r = 8%Z)
    ∧ (Num 8 = Num 8 → r = 8%Z).
Proof.
  apply (blur_radius 0 {[ 0 := Element [] ∅ ∅ None [] [] ]}
           (Element [] ∅ ∅ None [] []) "blur" (Num 8) false).
  - reflexivity.
  - reflexivity.
  - discriminate.
  - discriminate.
Defined.

(** C7 as stated fails at intensity 0: the radius is 8, not [max(2, 0)]. *)
Lemma blur_radius_zero :
  ¬ (∀ n : Z, (0 ≤ n)%Z → ∀ e',
       maskElement (Ref 0) "blur" (Num n) false {[ 0 := Element [] ∅ ∅ None [] [] ]} =
         Normal tt {[ 0 := e' ]} →
       style e' !! "filter" = Some (Declaration (BlurPx (Z.max 2 n)) true)).
Proof.
  intros H.
  specialize (H 0%Z ltac:(done)
    (Element ["sb-masked"] {[ "sbMaskMode" := "blur" ]}
       {[ "filter" := Declaration (BlurPx 8) true;
          "text-shadow" := Declaration (Keyword "0 0 12px rgba(0,0,0,.5)") true;
          "cursor" := Declaration (Keyword "pointer") true ]} None [Reveal true] [])).
  vm_compute in H. specialize (H eq_refl). discriminate H.
Qed.

(** C3, as the code has it.  For every mode, intensity and debug flag and
    every element, [unmaskElement] after [maskElement] leaves [filter],
    [color], [background], [text-shadow], [outline], [max-height],
    [overflow] and [position] unset and the mask class off; when no
    [.sb-overlay] element was below the element before, its children are
    again the ones it had (the overlay [maskElement] inserted is removed).
    So an element that had none of the eight properties set has, on these
    properties, its pre-mask inline style. *)
Theorem unmask_after_mask h (σ : page) e mode intensity debug :
  σ !! h = Some e →
  ∃ e',
    (maskElement (Ref h) mode intensity debug;; unmaskElement (Ref h)) σ =
      Normal tt (<[h := e']> σ)
    ∧ (∀ p, p ∈ unmaskedProperties → style e' !! p = None)
    ∧ isMasked e' = false
    ∧ (noOverlayBelow e → children e' = children e)
    ∧ ((∀ p, p ∈ unmaskedProperties → style e !! p = None) →
       ∀ p, p ∈ unmaskedProperties → style e' !! p = style e !! p).
Proof.
  intros He.
  set (e1 := if isMasked e then e else maskEffect mode intensity debug e).
  assert (maskElement (Ref h) mode intensity debug σ = Normal tt (<[h := e1]> σ))
    as Hmask.
  { unfold e1. destruct (isMasked e) eqn:Hm.
    - rewrite insert_id by done. by eapply maskElement_masked.
    - by apply maskElement_unmasked. }
  assert (∀ p, p ∈ unmaskedProperties → style (unmaskEffect e1) !! p = None)
    as Hunset.
  { intros p Hp. rewrite style_unmaskEffect. by rewrite bool_decide_eq_true_2. }
  exists (unmaskEffect e1). split_and!.
  - rewrite (bind_Normal _ _ _ _ _ Hmask).
    rewrite (unmaskElement_Ref h _ e1) by apply lookup_insert_eq.
    by rewrite insert_insert_eq.
  - done.
  - apply isMasked_unmaskEffect.
  - intros Hno. rewrite children_unmaskEffect. unfold e1, noOverlayBelow in *.
    destruct (isMasked e); [by apply removeOverlay_none|].
    rewrite children_maskEffect.
    destruct (String.eqb mode "blackout"); [by apply removeOverlay_none|].
    destruct (String.eqb mode "collapse"); [by apply removeOverlay_snoc|].
    by apply removeOverlay_none.
  - intros Hbefore p Hp. by rewrite Hunset, Hbefore.
Qed.

Lemma unmask_after_mask_witness :
  let e := Element ["comment"] ∅ {[ "font-weight" := Declaration (Keyword "bold") false ]}
             None [] [Node ["reply"] "re" "" [] []] in
  ∃ e',
    (maskElement (Ref 7) "collapse" (Num 24) true;; unmaskElement (Ref 7)) {[ 7 := e ]} =
      Normal tt (<[7 := e']> {[ 7 := e ]})
    ∧ (∀ p, p ∈ unmaskedProperties → style e' !! p = None)
    ∧ isMasked e' = false
    ∧ (noOverlayBelow e → children e' = children e)
    ∧ ((∀ p, p ∈ unmaskedProperties → style e !! p = None) →
       ∀ p, p ∈ unmaskedProperties → style e' !! p = style e !! p).
Proof.
  intros e. apply (unmask_after_mask 7 {[ 7 := e ]} e "collapse" (Num 24) true).
  reflexivity.
Defined.

Example mask_unmask_collapse :
  let e := Element ["comment"] ∅ {[ "font-weight" := Declaration (Keyword "bold") false ]}
             None [] [Node ["reply"] "re" "" [] []] in
  (maskElement (Ref 7) "collapse" (Num 24) true;; unmaskElement (Ref 7)) {[ 7 := e ]} =
  Normal tt {[ 7 := Element ["comment"] {[ "sbMaskMode" := "collapse" ]}
                      {[ "font-weight" := Declaration (Keyword "bold") false ]}
                      None [] [Node ["reply"] "re" "" [] []] ]}.
Proof. by vm_compute. Qed.

(** C3 as stated fails in blur mode: [cursor], which [maskElement] set, is
    still set after [unmaskElement]; and [filter], which the element had
    before the mask, is unset afterwards, so the style differs from the
    pre-mask one on a property the engine touches.  It also fails in
    collapse mode on an element that has an [.sb-overlay] below it already
    (here the overlay of a masked child): that one is removed and the
    inserted overlay stays. *)
Lemma unmask_leaves_cursor :
  (let e := Element [] ∅ {[ "filter" := Declaration (Keyword "grayscale(1)") false ]}
              None [] [] in
   ∃ e',
     (maskElement (Ref 0) "blur" (Num 8) false;; unmaskElement (Ref 0)) {[ 0 := e ]} =
       Normal tt {[ 0 := e' ]}
     ∧ style e !! "cursor" = None
     ∧ style e' !! "cursor" = Some (Declaration (Keyword "pointer") true)
     ∧ style e' !! "filter" ≠ style e !! "filter")
  ∧ (let child := Node ["card"; "sb-masked"] "" "" [] [overlay] in
     let e := Element [] ∅ ∅ None [] [child] in
     ∃ e',
       (maskElement (Ref 0) "collapse" (Num 0) false;; unmaskElement (Ref 0)) {[ 0 := e ]} =
         Normal tt {[ 0 := e' ]}
       ∧ children e' = [Node ["card"; "sb-masked"] "" "" [] []; overlay]).
Proof.
  split.
  - intros e.
    exists (Element [] {[ "sbMaskMode" := "blur" ]}
              {[ "cursor" := Declaration (Keyword "pointer") true ]} None [Reveal true] []).
    split_and!; [by vm_compute | done | done | by vm_compute].
  - intros child e.
    exists (Element [] {[ "sbMaskMode" := "collapse" ]} ∅ None []
              [Node ["card"; "sb-masked"] "" "" [] []; overlay]).
    split; [by vm_compute | done].
Qed.

(** ** Text node walker *)

Lemma acceptNode_true (σ : page) n :
  acceptNode σ n = true ↔
  (2 ≤ length (trim (nodeValue n)))%nat
  ∧ ∃ h parent st,
      parentElement n = Ref h ∧ σ !! h = Some parent
      ∧ computedStyle parent = Some st
      ∧ visibility st ≠ "hidden" ∧ display st ≠ "none".
Proof.
  unfold acceptNode, getComputedStyle.
  assert (negb (nonEmpty (trim (nodeValue n)))
          || (length (trim (nodeValue n)) <? 2)%nat = false
          ↔ (2 ≤ length (trim (nodeValue n)))%nat) as Hlen.
  { rewrite orb_false_iff, Nat.ltb_ge. destruct (trim (nodeValue n)); simpl; intuition lia. }
  destruct (negb _ || _).
  - split; [done|]. intros [H%Hlen _]. done.
  - assert (2 ≤ length (trim (nodeValue n)))%nat as E by by apply Hlen.
    clear Hlen.
    destruct (parentElement n) as [| |h]; cbn [truthy negb].
    { split; [done|]. by intros (_ & ? & ? & ? & [=] & _). }
    { split; [done|]. by intros (_ & ? & ? & ? & [=] & _). }
    destruct (σ !! h) as [parent|] eqn:Hp; cbn [mbind option_bind].
    2:{ split; [done|]. intros (_ & ? & ? & ? & [= <-] & ? & _). congruence. }
    destruct (computedStyle parent) as [st|] eqn:Hst.
    2:{ split; [done|]. intros (_ & ? & ? & ? & [= <-] & ? & ? & _). congruence. }
    destruct (String.eqb_spec (visibility st) "hidden") as [Hv|Hv];
      destruct (String.eqb_spec (display st) "none") as [Hd|Hd]; cbn [orb].
    4:{ split; [intros _|done]. split; [done|]. by exists h, parent, st. }
    all: split; [done|]; intros (_ & ? & ? & ? & [= <-] & ? & ? & ? & ?); congruence.
Qed.

(** C9.  [textNodesUnder] yields, in document order, exactly the text nodes
    below the root whose trimmed value has at least 2 characters and whose
    parent is an element with computed [visibility] other than [hidden] and
    computed [display] other than [none]; a node that fails any of these
    is not in the sequence. *)
Theorem textNodesUnder_accepts (σ : page) (below : list textNode) :
  (∀ n, n ∈ textNodesUnder σ below ↔
     n ∈ below
     ∧ (2 ≤ length (trim (nodeValue n)))%nat
     ∧ ∃ h parent st,
         parentElement n = Ref h ∧ σ !! h = Some parent
         ∧ computedStyle parent = Some st
         ∧ visibility st ≠ "hidden" ∧ display st ≠ "none")
  ∧ textNodesUnder σ below `sublist_of` below.
Proof.
  split; [|apply sublist_filter].
  intros n. unfold textNodesUnder. rewrite list_elem_of_filter, acceptNode_true.
  tauto.
Qed.

Example textNodesUnder_example :
  let visible := Element [] ∅ ∅ (Some (Computed "visible" "block")) [] [] in
  let hidden := Element [] ∅ ∅ (Some (Computed "hidden" "block")) [] [] in
  let gone := Element [] ∅ ∅ (Some (Computed "visible" "none")) [] [] in
  let σ : page := {[ 1 := visible; 2 := hidden; 3 := gone ]} in
  textNodesUnder σ
    [TextNode (txt " a ") (Ref 1); TextNode (txt "I loved Endgame") (Ref 1);
     TextNode (txt "secret") (Ref 2); TextNode (txt "secret") (Ref 3);
     TextNode (txt "orphan") Null; TextNode (txt "ok") (Ref 1)] =
  [TextNode (txt "I loved Endgame") (Ref 1); TextNode (txt "ok") (Ref 1)].
Proof. vm_compute. reflexivity. Qed.

(** ** Site gate *)

Example stripWww_examples :
  stripWww "www.example.com" = "example.com"
  ∧ stripWww "example.com" = "example.com"
  ∧ stripWww "www.www.example.com" = "www.example.com"
  ∧ stripWww "wwwx.example.com" = "wwwx.example.com".
Proof. by split_and!. Qed.

Lemma siteEnabled_false state hostname :
  siteEnabled state hostname = false ↔
  ∃ rule, siteRules state !! stripWww hostname = Some rule
          ∧ ruleEnabled rule = Some false.
Proof.
  unfold siteEnabled.
  destruct (siteRules state !! stripWww hostname) as [[[[]|]]|]; cbn;
    split; try done; try (intros (? & [= <-] & ?); done); eauto.
Qed.

(** C2.  The gate denies exactly when [enabled] is false, or
    [snoozeUntil > now], or the rule of the host name (a leading [www.]
    stripped) is present with [enabled] false; otherwise, also with no rule
    and with a rule that has no [enabled] field, it allows; it allows as soon
    as [now >= snoozeUntil] when the other two conditions allow.  A denied
    scan does nothing. *)
Theorem siteGate_decides state hostname now :
  (siteGate state hostname now = false ↔
     enabled state = false
     ∨ (snoozeUntil state > now)%Z
     ∨ ∃ rule, siteRules state !! stripWww hostname = Some rule
               ∧ ruleEnabled rule = Some false)
  ∧ (siteGate state hostname now = true ↔
       enabled state = true
       ∧ (now >= snoozeUntil state)%Z
       ∧ (siteRules state !! stripWww hostname = None
          ∨ ∃ rule, siteRules state !! stripWww hostname = Some rule
                    ∧ (ruleEnabled rule = None ∨ ruleEnabled rule = Some true)))
  ∧ (siteGate state hostname now = false →
     ∀ body (σ : page), runScanBody state hostname now body σ = Normal tt σ).
Proof.
  assert (siteGate state hostname now = false ↔
     enabled state = false
     ∨ (snoozeUntil state > now)%Z
     ∨ ∃ rule, siteRules state !! stripWww hostname = Some rule
               ∧ ruleEnabled rule = Some false) as Hdeny.
  { unfold siteGate, gateDenies, snoozed.
    rewrite negb_false_iff, !orb_true_iff, !negb_true_iff, Z.ltb_lt.
    rewrite siteEnabled_false. intuition lia. }
  split_and!; [done| |].
  - rewrite <- not_false_iff_true, Hdeny.
    destruct (enabled state); [|naive_solver].
    destruct (siteRules state !! stripWww hostname) as [[[[]|]]|];
      split; naive_solver lia.
  - unfold siteGate, runScanBody. intros ->%negb_false_iff. done.
Qed.

Example siteGate_scenarios :
  let base := Settings true 0 [txt "Endgame"] "blur" (Num 8) false false ∅ in
  let off := Settings true 0 [txt "Endgame"] "blur" (Num 8) false false
               {[ "example.com" := SiteRule (Some false) ]} in
  let bare := Settings true 0 [txt "Endgame"] "blur" (Num 8) false false
               {[ "example.com" := SiteRule None ]} in
  let snooze := Settings true 600000 [txt "Endgame"] "blur" (Num 8) false false ∅ in
  siteGate base "www.example.com" 1 = true
  ∧ siteGate off "www.example.com" 1 = false
  ∧ siteGate off "other.org" 1 = true
  ∧ siteGate bare "example.com" 1 = true
  ∧ siteGate snooze "example.com" 599999 = false
  ∧ siteGate snooze "example.com" 600000 = true.
Proof. by vm_compute. Qed.

(** ** Settings snapshot *)

Lemma toJSON_defined v : isUndefined (toJSON v) = false.
Proof. by destruct v as [| | |[|]| | |]. Qed.

Lemma jsonObject_defined o : defined (jsonObject o).
Proof.
  intros k v. unfold jsonObject. rewrite lookup_fmap.
  destruct (filter _ o !! k); [|done]. intros [= <-]. apply toJSON_defined.
Qed.

Lemma DEFAULTS_defined : defined DEFAULTS.
Proof.
  intros k v H. unfold DEFAULTS in H.
  repeat (apply lookup_insert_Some in H as [[_ <-]|[_ H]]; [done|]).
  by apply lookup_singleton_Some in H as [_ <-].
Qed.

Lemma assign_lookup (a b : object) k :
  assign a b !! k = match b !! k with Some v => Some v | None => a !! k end.
Proof.
  unfold assign. rewrite lookup_union. by destruct (b !! k), (a !! k).
Qed.

Lemma populated_assign (a b : object) :
  populated a → defined b → populated (assign a b).
Proof.
  intros Ha Hb k Hk. rewrite assign_lookup.
  destruct (b !! k) as [v|] eqn:E; [|by apply Ha]. exists v. eauto.
Qed.

Lemma populated_loadSettings stored : populated (loadSettings stored).
Proof.
  intros k Hk. unfold loadSettings. rewrite assign_lookup. unfold storageGet.
  apply elem_of_dom in Hk as [d Hd].
  destruct (filter (λ kv, kv.1 ∈ dom DEFAULTS) (jsonObject stored) !! k)
    as [v|] eqn:E.
  - rewrite (lookup_union_Some_l _ _ _ _ E). exists v. split; [done|].
    apply map_lookup_filter_Some in E as [E _]. by eapply jsonObject_defined.
  - rewrite lookup_union_r, Hd by done. exists d. split; [done|].
    by eapply DEFAULTS_defined.
Qed.

Lemma populated_onMessage state msg :
  populated state → populated (onMessage state (deliver msg)).
Proof.
  intros H. unfold onMessage, deliver. cbn [type payload].
  destruct (String.eqb (type msg) "SB_SETTINGS_UPDATED"); [|done].
  apply populated_assign; [done|].
  destruct (payload msg); cbn; [apply jsonObject_defined | by intros ??].
Qed.

Lemma populated_foldl state sent :
  populated state → populated (foldl onMessage state (deliver <$> sent)).
Proof.
  revert state. induction sent as [|msg sent IH]; intros state H; [done|].
  cbn. by apply IH, populated_onMessage.
Qed.

Example DEFAULTS_fields :
  dom DEFAULTS =
  list_to_set ["enabled"; "snoozeUntil"; "keywords"; "mode"; "intensity";
               "partial"; "highlightDebug"; "siteRules"].
Proof. unfold DEFAULTS. rewrite !dom_insert_L, dom_singleton_L. set_solver. Qed.

(** C5.  After the initial load every field of [DEFAULTS] has a value other
    than [undefined] in the live snapshot, whatever was stored and whatever
    messages are sent to the page, in any number and order: a delivered
    payload holds no [undefined], and a settings message changes exactly the
    fields its payload holds and keeps the value of every other field (a
    message of another type, or one without payload, changes nothing). *)
Theorem snapshot_populated (stored : object) (sent : list message) :
  populated (snapshotAfter stored sent)
  ∧ (∀ msg, defined (default ∅ (payload (deliver msg))))
  ∧ (∀ state msg k,
       onMessage state msg !! k =
       if String.eqb (type msg) "SB_SETTINGS_UPDATED"
       then match default ∅ (payload msg) !! k with
            | Some v => Some v
            | None => state !! k
            end
       else state !! k).
Proof.
  split_and!.
  - apply populated_foldl, populated_loadSettings.
  - intros msg. unfold deliver. cbn [payload].
    destruct (payload msg); cbn; [apply jsonObject_defined | by intros ??].
  - intros state msg k. unfold onMessage.
    destruct (String.eqb (type msg) "SB_SETTINGS_UPDATED"); [|done].
    apply assign_lookup.
Qed.

Example snapshot_example :
  let stored : object := {[ "mode" := VString "collapse"; "junk" := VNull ]} in
  let patch1 := Message "SB_SETTINGS_UPDATED" (Some {[ "intensity" := VNumber (Num 3) ]}) in
  let patch2 := Message "SB_SETTINGS_UPDATED" None in
  let other := Message "PING" (Some {[ "mode" := VString "blur" ]}) in
  let state := snapshotAfter stored [patch1; other; patch2] in
  state !! "mode" = Some (VString "collapse")
  ∧ state !! "intensity" = Some (VNumber (Num 3))
  ∧ state !! "enabled" = Some (VBool true)
  ∧ state !! "junk" = None.
Proof. vm_compute. done. Qed.

(** A key removed from the storage area: the payload the background script
    builds holds [undefined] for it, the delivered message does not hold the
    key, and the snapshot keeps the value it had. *)
Example removed_key_keeps_value :
  let changes : gmap string storageChange :=
    {[ "mode" := StorageChange (Some (VString "collapse")) None;
       "partial" := StorageChange (Some (VBool false)) (Some (VBool true)) ]} in
  ∃ msg, onChanged changes "sync" = Some msg
    ∧ default ∅ (payload msg) !! "mode" = Some VUndefined
    ∧ default ∅ (payload (deliver msg)) !! "mode" = None
    ∧ snapshotAfter ∅ [msg] !! "mode" = Some (VString "blur")
    ∧ snapshotAfter ∅ [msg] !! "partial" = Some (VBool true).
Proof. eexists. split; [reflexivity|]. vm_compute. done. Qed.

(** ** Matcher builder: the claims *)

Lemma occursAt_infix ws1 m ws2 s i :
  occursAt (ws1 ++ m ++ ws2) s i → occursAt m s (i + length ws1).
Proof.
  unfold occursAt, sameUpToCase. intros (pre & mid & post & -> & <- & H).
  rewrite !fmap_app in H.
  apply fmap_app_inv in H as (a & rest & Ha & H & ->). symmetry in H.
  apply fmap_app_inv in H as (b & c & Hb & Hc & ->).
  exists (pre ++ a), b, (c ++ post). split_and!.
  - by rewrite <- !app_assoc.
  - rewrite length_app. f_equal.
    apply (f_equal length) in Ha. by rewrite !length_fmap in Ha.
  - done.
Qed.

Lemma test_buildRegex_true ks partial r s :
  buildRegex ks partial = Some r →
  RegExp.test r s = Some true ↔ keywordMatch partial (keptKeywords ks) s.
Proof.
  intros H. destruct (test_buildRegex ks partial r s H) as (b & -> & Hb).
  rewrite <- Hb. naive_solver.
Qed.

Lemma test_buildRegex_false ks partial r s :
  buildRegex ks partial = Some r →
  RegExp.test r s = Some false ↔ ¬ keywordMatch partial (keptKeywords ks) s.
Proof.
  intros H. destruct (test_buildRegex ks partial r s H) as (b & -> & Hb).
  rewrite <- Hb. destruct b; naive_solver.
Qed.

(** C1, as the code has it.  For every keyword list from which
    [buildRegex] compiles a matcher, the matcher ignores letter case: it has
    the [i] flag and gives the same answer on texts that differ in case
    only; it answers on every text.  Without [partial] a text matches only
    if a kept keyword (a keyword of the list, trimmed; blank ones are
    dropped) occurs in it, case apart, with a word boundary right before and
    right after the occurrence, so a text in which no occurrence has both
    boundaries does not match.  With [partial], an occurrence anywhere, case
    apart, of a kept keyword, or of a keyword of the list that is not blank,
    makes the text match. *)
Theorem buildRegex_matcher keywords partial r :
  buildRegex keywords partial = Some r →
  RegExp.ignoreCase r = true
  ∧ (∀ s s', sameUpToCase s s' → RegExp.test r s = RegExp.test r s')
  ∧ (∀ s, RegExp.test r s = Some true ∨ RegExp.test r s = Some false)
  ∧ (partial = false → ∀ s,
       RegExp.test r s = Some true →
       ∃ k i, k ∈ keptKeywords keywords ∧ occursAt k s i
              ∧ RegExp.isWordBoundary s i = true
              ∧ RegExp.isWordBoundary s (i + length k) = true)
  ∧ (partial = false → ∀ s,
       (∀ k i, k ∈ keptKeywords keywords → occursAt k s i →
               ¬ (RegExp.isWordBoundary s i = true
                  ∧ RegExp.isWordBoundary s (i + length k) = true)) →
       RegExp.test r s = Some false)
  ∧ (partial = true → ∀ s k i,
       k ∈ keptKeywords keywords ∨ (k ∈ keywords ∧ trim k ≠ []) →
       occursAt k s i → RegExp.test r s = Some true).
Proof.
  intros H. split_and!.
  - by apply compile_buildRegex in H as (_ & ? & _).
  - intros s s' Hs.
    destruct (test_buildRegex _ _ _ s H) as (b & -> & Hb).
    destruct (test_buildRegex _ _ _ s' H) as (b' & -> & Hb').
    f_equal. apply eq_true_iff_eq. rewrite Hb, Hb'. split.
    + by apply sameUpToCase_keywordMatch.
    + by apply sameUpToCase_keywordMatch.
  - intros s. destruct (test_buildRegex _ _ _ s H) as ([] & -> & _); auto.
  - intros -> s Hs. apply (test_buildRegex_true _ _ _ s H) in Hs.
    destruct Hs as (k & i & Hk & Hocc & Hb). destruct Hb as [? ?]; [done|].
    by exists k, i.
  - intros -> s Hs. apply (test_buildRegex_false _ _ _ s H).
    intros (k & i & Hk & Hocc & Hb). by apply (Hs k i); [..|apply Hb].
  - intros -> s k i Hk Hocc. apply (test_buildRegex_true _ _ _ s H).
    destruct Hk as [Hk|[Hk Hne]].
    + by exists k, i.
    + destruct (trim_spec k) as ((ws1 & ws2 & Hsplit & _) & _).
      exists (trim k), (i + length ws1). split_and!; [|by rewrite Hsplit in Hocc; apply occursAt_infix in Hocc|done].
      apply elem_of_keptKeywords. eauto.
Qed.

Lemma buildRegex_matcher_witness :
  let keywords := [txt "ship"] in
  let r := RegExp.Make (txt "\b(ship)\b") true in
  RegExp.ignoreCase r = true
  ∧ (∀ s s', sameUpToCase s s' → RegExp.test r s = RegExp.test r s')
  ∧ (∀ s, RegExp.test r s = Some true ∨ RegExp.test r s = Some false)
  ∧ (false = false → ∀ s,
       RegExp.test r s = Some true →
       ∃ k i, k ∈ keptKeywords keywords ∧ occursAt k s i
              ∧ RegExp.isWordBoundary s i = true
              ∧ RegExp.isWordBoundary s (i + length k) = true)
  ∧ (false = false → ∀ s,
       (∀ k i, k ∈ keptKeywords keywords → occursAt k s i →
               ¬ (RegExp.isWordBoundary s i = true
                  ∧ RegExp.isWordBoundary s (i + length k) = true)) →
       RegExp.test r s = Some false)
  ∧ (false = true → ∀ s k i,
       k ∈ keptKeywords keywords ∨ (k ∈ keywords ∧ trim k ≠ []) →
       occursAt k s i → RegExp.test r s = Some true).
Proof.
  intros keywords r. apply (buildRegex_matcher keywords false r). reflexivity.
Defined.

Lemma occursAt_length k s i : occursAt k s i → (i + length k ≤ length s)%nat.
Proof.
  intros (pre & mid & post & -> & <- & H). apply (f_equal length) in H.
  rewrite !length_fmap in H. rewrite !length_app. lia.
Qed.

(** C1 as stated fails on keywords with white space around them.  With
    [partial], the blank keyword [" "] occurs in ["a b"], which does not
    match; a list of blank keywords only is not empty and has no matcher;
    and without [partial] the text ["ship"] matches the list [[" ship "]],
    none of whose keywords occurs in it. *)
Lemma blank_keyword_no_match :
  (∃ r, buildRegex [txt "x"; txt " "] true = Some r
        ∧ txt " " ∈ [txt "x"; txt " "]
        ∧ occursAt (txt " ") (txt "a b") 1
        ∧ RegExp.test r (txt "a b") = Some false)
  ∧ buildRegex [txt " "] true = None
  ∧ (∃ r, buildRegex [txt " ship "] false = Some r
          ∧ RegExp.test r (txt "ship") = Some true
          ∧ ∀ k i, k ∈ [txt " ship "] → ¬ occursAt k (txt "ship") i).
Proof.
  split_and!.
  - eexists. split; [reflexivity|]. split_and!.
    + set_solver.
    + by exists (txt "a"), (txt " "), (txt "b").
    + by vm_compute.
  - reflexivity.
  - eexists. split; [reflexivity|]. split; [by vm_compute|].
    intros k i ->%list_elem_of_singleton Hocc%occursAt_length.
    cbn in Hocc. lia.
Qed.

(** The matcher of the scan, on a text: [regex.test(tn.nodeValue)]. *)
Example whole_word_examples :
  let test keywords partial s :=
    r ← buildRegex (txt <$> keywords) partial; RegExp.test r (txt s) in
  test ["ship"] false "the shipment" = Some false
  ∧ test ["ship"] false "a Ship sails" = Some true
  ∧ test ["ship"] true "the shipment" = Some true
  ∧ test ["Endgame"] false "I loved Endgame's ending" = Some true
  ∧ test ["Endgame"] false "Endgamey stuff" = Some false
  ∧ test [" c++ "; "a.b"] true "axb C++" = Some true
  ∧ test ["a.b"] true "axb" = Some false
  ∧ test ["  "; ""] true "a  b" = None.
Proof. vm_compute. done. Qed.

(** C8.  [buildRegex] trims every keyword and drops the ones that are
    empty after trimming; escaped, a keyword is read by the RegExp parser as
    its own characters, one literal each, so the compiled pattern is the
    alternation of the kept keywords, literally; the result is [null]
    exactly when no keyword is kept, and then [scan] returns without doing
    anything. *)
Theorem buildRegex_contract keywords partial :
  (∀ k, k ∈ keptKeywords keywords ↔
        k ≠ [] ∧ ∃ k0, k0 ∈ keywords ∧ k = trim k0 ∧ isTrimOf k k0)
  ∧ (∀ k, RegExp.tokenize (escapeRegExp k) = Some (RegExp.TChar <$> k))
  ∧ (∀ r, buildRegex keywords partial = Some r →
          RegExp.compile (RegExp.source r) =
          Some (keywordProgram partial (keptKeywords keywords)))
  ∧ (buildRegex keywords partial = None ↔ keptKeywords keywords = [])
  ∧ (keptKeywords keywords = [] →
     ∀ state body (σ : page),
       scan state body (buildRegex keywords partial) σ = Normal tt σ).
Proof.
  split_and!.
  - intros k. rewrite elem_of_keptKeywords. split.
    + intros (Hk & k0 & Hk0 & ->). split; [done|]. exists k0.
      split_and!; [done..|apply trim_spec].
    + intros (Hk & k0 & Hk0 & -> & _). eauto.
  - intros k. pose proof (tokenize_escapeRegExp k []) as H.
    rewrite app_nil_r in H. rewrite H. simpl. by rewrite app_nil_r.
  - by intros r (_ & _ & ?)%compile_buildRegex.
  - apply buildRegex_None.
  - intros Hk state body σ.
    by rewrite (proj2 (buildRegex_None keywords partial) Hk).
Qed.

(** ** Scan scheduler *)

Section Scheduler.
Import Timers.
Variable wait : Z.

Lemma elapse_idle now s : pending (timers s) = [] → elapse now s = s.
Proof. unfold elapse. by intros ->. Qed.

Lemma elapse_early now s tm :
  pending (timers s) = [tm] → (now < due tm)%Z → elapse now s = s.
Proof.
  unfold elapse. intros H Hlt. rewrite H. cbn [length advance]. rewrite H.
  cbn [earliest]. by rewrite (proj2 (Z.leb_gt _ _) Hlt).
Qed.

Lemma elapse_due now s tm :
  pending (timers s) = [tm] → (due tm ≤ now)%Z →
  elapse now s = Scheduler (t s) (Host [] (nextId (timers s))) (ran s ++ [due tm]).
Proof.
  unfold elapse. intros H Hle. rewrite H. cbn [length advance]. rewrite H.
  cbn [earliest]. rewrite (proj2 (Z.leb_le _ _) Hle). unfold fire. rewrite H.
  cbn [filter list_filter]. by rewrite decide_False by (by intros []).
Qed.

Lemma trigger_onePending now s :
  onePending s →
  ran (trigger wait now s) = ran s
  ∧ ∃ i, t (trigger wait now s) = Some i
         ∧ pending (timers (trigger wait now s)) = [Timer i (now + wait)].
Proof.
  unfold trigger, setTimeout, clearTimeout.
  intros [H|(i & d & Ht & H)].
  - destruct (t s); cbn; rewrite H; cbn; eauto.
  - rewrite Ht. cbn. rewrite H. cbn [filter list_filter id].
    rewrite decide_False by (by intros []). cbn. eauto.
Qed.

Lemma elapse_onePending now s : onePending s → onePending (elapse now s).
Proof.
  intros [H|(i & d & Ht & H)].
  - rewrite elapse_idle by done. by left.
  - destruct (Z.le_gt_cases d now) as [Hle|Hgt].
    + rewrite (elapse_due now s _ H) by done. by left.
    + rewrite (elapse_early now s _ H) by done. right. eauto.
Qed.

Lemma runTriggers_onePending times s :
  onePending s → onePending (runTriggers wait times s).
Proof.
  revert s. induction times as [|now times IH]; intros s H; [done|].
  cbn [runTriggers foldl]. apply IH.
  destruct (trigger_onePending now (elapse now s)) as (_ & i & ? & ?).
  - by apply elapse_onePending.
  - right. eauto.
Qed.

Lemma last_cons_default (first now : Z) rest :
  default first (last (now :: rest)) = default now (last rest).
Proof.
  revert first now. induction rest as [|x rest IH]; intros first now; [done|].
  change (last (now :: x :: rest)) with (last (x :: rest)).
  by rewrite (IH first x), (IH now x).
Qed.

(** During a burst nothing runs; the one pending timer moves with each
    trigger. *)
Lemma runTriggers_burst first rest s i :
  burst wait first rest →
  t s = Some i → pending (timers s) = [Timer i (first + wait)] →
  ran (runTriggers wait rest s) = ran s
  ∧ ∃ j, t (runTriggers wait rest s) = Some j
         ∧ pending (timers (runTriggers wait rest s)) =
           [Timer j (default first (last rest) + wait)].
Proof.
  revert first s i. induction rest as [|now rest IH]; intros first s i Hb Ht Hp.
  - cbn. eauto.
  - destruct Hb as [Hnow Hb]. cbn [runTriggers foldl].
    change (foldl _ ?s0 rest) with (runTriggers wait rest s0).
    rewrite (elapse_early now s _ Hp) by (cbn; lia).
    destruct (trigger_onePending now s) as (Hran & j & Hj & Hpj);
      [right; eauto|].
    destruct (IH now _ j Hb Hj Hpj) as (Hran' & k & Hk & Hpk).
    rewrite last_cons_default. split; [congruence | eauto].
Qed.

End Scheduler.

(** C6.  A burst of triggers, each less than 300 ms after the one before,
    runs the scan exactly once, 300 ms after the last of them: nothing runs
    while the burst lasts, each trigger leaves a single pending timer, due
    300 ms after that trigger (the one pending before is cleared), and once
    the last one is due the scan has run once, at that time, and nothing is
    pending.  For every sequence of triggers at most one run is pending at
    any time; a run is a single step of the host's loop. *)
Theorem debounce_burst (first : Z) (rest : list Z) :
  burst runScanWait first rest →
  let final := default first (last rest) in
  let s := runScan (first :: rest) in
  ran s = []
  ∧ (∃ i, t s = Some i
          ∧ Timers.pending (timers s) = [Timers.Timer i (final + 300)])
  ∧ (∀ now, (final + 300 ≤ now)%Z →
       ran (elapse now s) = [(final + 300)%Z]
       ∧ Timers.pending (timers (elapse now s)) = [])
  ∧ (∀ now, (now < final + 300)%Z → elapse now s = s)
  ∧ (∀ times, onePending (runScan times)
              ∧ (length (Timers.pending (timers (runScan times))) ≤ 1)%nat).
Proof.
  intros Hb final s.
  assert (ran s = [] ∧ ∃ i, t s = Some i
          ∧ Timers.pending (timers s) = [Timers.Timer i (final + 300)])
    as (Hran & i & Ht & Hp).
  { unfold s, runScan. cbn [runTriggers foldl].
    change (foldl _ ?s0 rest) with (runTriggers runScanWait rest s0).
    rewrite elapse_idle by done.
    destruct (runTriggers_burst runScanWait first rest
                (trigger runScanWait first scheduler0) 0 Hb) as (Hr & j & ? & ?);
      [done..|]. split; [by rewrite Hr | eauto]. }
  split_and!; [done|eauto|..].
  - intros now Hnow. rewrite (elapse_due now s _ Hp) by done.
    cbn [ran timers Timers.pending Timers.due]. by rewrite Hran.
  - intros now Hnow. by rewrite (elapse_early now s _ Hp).
  - intros times.
    assert (onePending (runScan times)) as H
      by (apply runTriggers_onePending; by left).
    split; [done|]. destruct H as [->|(? & ? & _ & ->)]; cbn; lia.
Qed.

(** Fifty triggers, 2 ms apart. *)
Lemma debounce_burst_witness :
  let rest := (λ i : nat, (2 * Z.of_nat i)%Z) <$> seq 1 49 in
  let s := runScan (0%Z :: rest) in
  ran s = []
  ∧ (∃ i, t s = Some i
          ∧ Timers.pending (timers s) = [Timers.Timer i (98 + 300)])
  ∧ (∀ now, (98 + 300 ≤ now)%Z →
       ran (elapse now s) = [(98 + 300)%Z]
       ∧ Timers.pending (timers (elapse now s)) = [])
  ∧ (∀ now, (now < 98 + 300)%Z → elapse now s = s)
  ∧ (∀ times, onePending (runScan times)
              ∧ (length (Timers.pending (timers (runScan times))) ≤ 1)%nat).
Proof.
  intros rest.
  apply (debounce_burst 0 rest).
  vm_compute. repeat split; discriminate.
Defined.

Example runScan_two_bursts :
  ran (elapse 2000 (runScan [0; 100; 250; 1000; 1299]%Z)) = [550; 1599]%Z.
Proof. vm_compute. reflexivity. Qed.

(** * Beyond the claims *)

(** ** [debounce], for any wait and any triggers *)

Section Debounce.
Import Timers.
Variable wait : Z.





End Debounce.





(** ** Keywords: popup.js and the context menu *)

Lemma trimStart_whitespace ws s :
  Forall (λ c, isWhiteSpace c = true) ws → trimStart (ws ++ s) = trimStart s.
Proof. induction 1 as [|c ws Hc _ IH]; [done|]. cbn. by rewrite Hc. Qed.

Lemma trimStart_fixed s :
  (∀ c rest, s = c :: rest → isWhiteSpace c = false) → trimStart s = s.
Proof. destruct s as [|c s]; [done|]. intros H. cbn. by rewrite (H c s). Qed.

(** [trim s] is the one text that is [s] without the white space at its
    ends. *)
Lemma trim_unique t s : isTrimOf t s → trim s = t.
Proof.
  intros ((ws1 & ws2 & -> & H1 & H2) & Hhead & Hlast). unfold trim, trimEnd.
  rewrite trimStart_whitespace by done.
  assert (trimStart (rev ws2 ++ rev t) = rev t) as Hrev.
  { rewrite trimStart_whitespace by by apply Forall_rev.
    apply trimStart_fixed. intros c rest Hc. apply (Hlast c (rev rest)).
    by rewrite <- (rev_involutive t), Hc. }
  destruct t as [|c t].
  - cbn [app]. rewrite <- (app_nil_r ws2) at 1.
    by rewrite trimStart_whitespace by done.
  - rewrite (trimStart_fixed ((c :: t) ++ ws2)) by (intros ?? [= <- _]; eauto).
    by rewrite rev_app_distr, Hrev, rev_involutive.
Qed.

Lemma trim_idemp s : trim (trim s) = trim s.
Proof.
  apply trim_unique. destruct (trim_spec s) as (_ & Hhead & Hlast).
  split_and!; [|done..]. exists [], []. by rewrite app_nil_r.
Qed.

Lemma keptKeywords_cons k ks :
  keptKeywords (k :: ks) =
  if nonEmpty (trim k) then trim k :: keptKeywords ks else keptKeywords ks.
Proof.
  unfold keptKeywords. rewrite fmap_cons, filter_cons.
  destruct (nonEmpty (trim k)); by case_decide.
Qed.

(** The lists [buildRegex] keeps as they are: every keyword trimmed and not
    empty. *)
Lemma keptKeywords_fixed ks :
  keptKeywords ks = ks ↔ Forall (λ k, trim k = k ∧ nonEmpty k = true) ks.
Proof.
  split.
  - intros H. apply Forall_forall. intros k Hk. rewrite <- H in Hk.
    apply elem_of_keptKeywords in Hk as (Hne & k0 & _ & ->).
    split; [apply trim_idemp | by destruct (trim k0)].
  - induction 1 as [|k ks [Hk Hne] _ IH]; [done|].
    by rewrite keptKeywords_cons, Hk, Hne, IH.
Qed.

Lemma elem_of_setAdd set x y : y ∈ setAdd set x ↔ y ∈ set ∨ y = x.
Proof. unfold setAdd. case_bool_decide; set_solver. Qed.

Lemma NoDup_setAdd set x : NoDup set → NoDup (setAdd set x).
Proof.
  unfold setAdd. case_bool_decide as Hx; [done|]. intros Hnd.
  apply NoDup_app. split_and!; [done| |apply NoDup_singleton]. set_solver.
Qed.

Lemma foldl_setAdd acc l :
  NoDup acc →
  NoDup (foldl setAdd acc l) ∧ ∀ y, y ∈ foldl setAdd acc l ↔ y ∈ acc ∨ y ∈ l.
Proof.
  revert acc. induction l as [|x l IH]; intros acc H; [set_solver|].
  cbn [foldl]. destruct (IH (setAdd acc x) (NoDup_setAdd _ _ H)) as [Hnd Hel].
  split; [done|]. intros y. rewrite Hel, elem_of_setAdd. set_solver.
Qed.

Lemma foldl_setAdd_NoDup acc l :
  NoDup (acc ++ l) → foldl setAdd acc l = acc ++ l.
Proof.
  revert acc. induction l as [|x l IH]; intros acc H; [by rewrite app_nil_r|].
  cbn [foldl]. unfold setAdd at 2. rewrite bool_decide_eq_false_2.
  - rewrite IH; rewrite <- app_assoc; done.
  - apply NoDup_app in H as (_ & Hx & _). intros Hin. apply (Hx x Hin). set_solver.
Qed.

Lemma NoDup_newSet l : NoDup (newSet l).
Proof. apply foldl_setAdd. constructor. Qed.

Lemma elem_of_newSet l y : y ∈ newSet l ↔ y ∈ l.
Proof.
  unfold newSet. destruct (foldl_setAdd [] l) as [_ H]; [constructor|].
  rewrite H. set_solver.
Qed.

Lemma newSet_NoDup l : NoDup l → newSet l = l.
Proof. intros H. by apply (foldl_setAdd_NoDup [] l). Qed.

Lemma addKeyword_blank input stored :
  nonEmpty (trim input) = false → addKeyword input stored = stored.
Proof. unfold addKeyword. by intros ->. Qed.

Lemma addKeyword_term input stored :
  nonEmpty (trim input) = true →
  addKeyword input stored = setAdd (newSet stored) (trim input).
Proof. unfold addKeyword. by intros ->. Qed.

Lemma Forall_addKeyword (P : text → Prop) input stored :
  (nonEmpty (trim input) = true → P (trim input)) →
  Forall P stored → Forall P (addKeyword input stored).
Proof.
  intros Hterm H. destruct (nonEmpty (trim input)) eqn:E.
  - rewrite addKeyword_term by done. apply Forall_forall. intros k Hk.
    apply elem_of_setAdd in Hk as [Hk| ->]; [|by apply Hterm].
    rewrite elem_of_newSet in Hk. rewrite Forall_forall in H. by apply H.
  - by rewrite addKeyword_blank.
Qed.

Lemma NoDup_addKeyword input stored :
  NoDup stored → NoDup (addKeyword input stored).
Proof.
  intros H. destruct (nonEmpty (trim input)) eqn:E.
  - rewrite addKeyword_term by done. apply NoDup_setAdd, NoDup_newSet.
  - by rewrite addKeyword_blank.
Qed.

(** X3.  Adding a keyword (the popup's add button, the context menu's add
    selection): a blank input leaves the stored list as it is; any other
    input gives a list without duplicates that holds the trimmed input and
    the keywords stored before, nothing else, and when the stored list had
    no duplicates it is that list, with the trimmed input appended unless it
    was there already. *)
Theorem addKeyword_adds (input : text) (stored : list text) :
  (trim input = [] → addKeyword input stored = stored)
  ∧ (trim input ≠ [] →
     NoDup (addKeyword input stored)
     ∧ (∀ k, k ∈ addKeyword input stored ↔ k ∈ stored ∨ k = trim input)
     ∧ (NoDup stored →
        addKeyword input stored =
          if bool_decide (trim input ∈ stored) then stored
          else stored ++ [trim input])).
Proof.
  split.
  - intros H. apply addKeyword_blank. by rewrite H.
  - intros H. assert (nonEmpty (trim input) = true) as Hne
      by by destruct (trim input).
    rewrite addKeyword_term by done. split_and!.
    + apply NoDup_setAdd, NoDup_newSet.
    + intros k. by rewrite elem_of_setAdd, elem_of_newSet.
    + intros Hnd. by rewrite newSet_NoDup.
Qed.

(** X4.  Whatever is done with the add, remove and clear buttons of the
    popup and the add-selection entry of the context menu, in any order,
    starting from a stored list of trimmed, non-empty keywords without
    duplicates (the empty list of a fresh install is one): the stored list
    and the list the popup shows stay without duplicates, and [buildRegex]
    keeps each of their keywords as it is. *)
Theorem keywords_stay_clean (stored : list text) (actions : list keywordAction) :
  NoDup stored → keptKeywords stored = stored →
  let v := foldl keywordStep (KeywordView stored stored) actions in
  (NoDup (storedKeywords v) ∧ keptKeywords (storedKeywords v) = storedKeywords v)
  ∧ (NoDup (shownKeywords v) ∧ keptKeywords (shownKeywords v) = shownKeywords v).
Proof.
  intros Hnd Hkept. cbn zeta.
  set (good := λ ks : list text,
         NoDup ks ∧ Forall (λ k, trim k = k ∧ nonEmpty k = true) ks).
  assert (∀ v, good (storedKeywords v) → good (shownKeywords v) →
            good (storedKeywords (foldl keywordStep v actions))
            ∧ good (shownKeywords (foldl keywordStep v actions))) as H.
  { induction actions as [|a actions IH]; intros v Hs Hv; [done|].
    cbn [foldl]. assert (∀ input, good (addKeyword input (storedKeywords v))) as Hadd.
    { intros input. destruct Hs as [Hs1 Hs2]. split.
      - by apply NoDup_addKeyword.
      - apply Forall_addKeyword; [|done]. intros Hne.
        split; [apply trim_idemp|done]. }
    assert (∀ term, good (removeKeyword term (shownKeywords v))) as Hrem.
    { intros term. destruct Hv as [Hv1 Hv2]. split.
      - by apply NoDup_filter.
      - apply Forall_forall. intros k [_ Hk]%list_elem_of_filter.
        rewrite Forall_forall in Hv2. by apply Hv2. }
    apply IH; destruct a as [input|term| |sel]; cbn [keywordStep];
      try destruct (negb (nonEmpty (trim input)));
      cbn [storedKeywords shownKeywords]; try done;
      split; constructor. }
  destruct (H (KeywordView stored stored)) as [[H1 H2] [H3 H4]];
    try (split; [done | by apply keptKeywords_fixed]).
  by rewrite !keptKeywords_fixed.
Qed.

Lemma keywords_stay_clean_witness :
  let stored := [txt "dies"; txt "season finale"] in
  let actions := [AddClick (txt "  winner "); AddSelection (txt "dies");
                  RemoveClick (txt "dies"); AddClick (txt "   ")] in
  let v := foldl keywordStep (KeywordView stored stored) actions in
  (NoDup (storedKeywords v) ∧ keptKeywords (storedKeywords v) = storedKeywords v)
  ∧ (NoDup (shownKeywords v) ∧ keptKeywords (shownKeywords v) = shownKeywords v).
Proof.
  apply (keywords_stay_clean [txt "dies"; txt "season finale"]
           [AddClick (txt "  winner "); AddSelection (txt "dies");
            RemoveClick (txt "dies"); AddClick (txt "   ")]).
  - compute_done.
  - reflexivity.
Defined.

(** X5.  The remove button of a keyword: the keyword is gone from the list,
    every other keyword stays, in the order it had; and on a list without
    duplicates that lacks the keyword, removing what the add button just
    added gives the list back. *)
Theorem removeKeyword_removes (term : text) (shown : list text) :
  (term ∉ removeKeyword term shown)
  ∧ (∀ k, k ≠ term → k ∈ removeKeyword term shown ↔ k ∈ shown)
  ∧ removeKeyword term shown `sublist_of` shown
  ∧ (∀ input, trim input = term → term ≠ [] → NoDup shown → term ∉ shown →
       removeKeyword term (addKeyword input shown) = shown).
Proof.
  unfold removeKeyword. split_and!.
  - rewrite list_elem_of_filter. tauto.
  - intros k Hk. rewrite list_elem_of_filter. tauto.
  - apply sublist_filter.
  - intros input Hin Hne Hnd Hnot.
    assert (nonEmpty (trim input) = true) as Hn
      by (rewrite Hin; by destruct term).
    rewrite addKeyword_term, newSet_NoDup, Hin by done.
    unfold setAdd. rewrite bool_decide_eq_false_2 by done.
    rewrite filter_app, filter_cons_False, filter_nil, app_nil_r by tauto.
    clear -Hnot. induction shown as [|k shown IH]; [done|].
    rewrite filter_cons_True by set_solver. f_equal. apply IH. set_solver.
Qed.

(** ** Site rules and snooze: background.js, popup.js and options.js *)





(** X7.  The snooze button and the context menu's snooze: whatever the
    snooze was before (a longer one too), scanning is denied at every time
    before [now] plus 1 800 000 ms, and from then on the gate decides by the
    master switch and the site rule alone. *)
Theorem snooze30_gate (now : Z) (state : settings) (hostname : string) (time : Z) :
  siteGate (snooze30 now state) hostname time =
  (now + 1800000 <=? time)%Z && enabled state && siteEnabled state hostname.
Proof.
  unfold siteGate, gateDenies, snoozed, snooze30.
  destruct state as [en sn ks md it pa hd rules].
  cbn [withSnoozeUntil enabled snoozeUntil].
  change (siteEnabled (Settings en _ ks md it pa hd rules) hostname)
    with (siteEnabled (Settings en sn ks md it pa hd rules) hostname).
  generalize (siteEnabled (Settings en sn ks md it pa hd rules) hostname).
  intros site. change (now + 30 * 60 * 1000)%Z with (now + 1800000)%Z.
  rewrite Z.ltb_antisym.
  by destruct en, (now + 1800000 <=? time)%Z, site.
Qed.






(** X10.  The host the options page stores for a URL: with white space
    around it, the scheme [http://] or [https://] in front and a slash at
    the end, what is stored is what stands between the scheme and that
    slash, as it is (a path, capitals and a leading [www.] stay). *)
Theorem normalizeHost_url (ws1 ws2 h : text) (secure : bool) :
  Forall (λ c, isWhiteSpace c = true) ws1 →
  Forall (λ c, isWhiteSpace c = true) ws2 →
  normalizeHost
    (ws1 ++ (txt (if secure then "https://" else "http://") ++ h ++ txt "/") ++ ws2)
  = h.
Proof.
  intros H1 H2. unfold normalizeHost.
  rewrite (trim_unique (txt (if secure then "https://" else "http://") ++ h ++ txt "/")).
  - assert (stripScheme (txt (if secure then "https://" else "http://") ++ h ++ txt "/")
            = h ++ txt "/") as -> by by destruct secure.
    unfold stripFinalSlash. cbn [txt list_ascii_of_string].
    rewrite rev_app_distr. cbn [rev app]. apply rev_involutive.
  - split_and!.
    + by exists ws1, ws2.
    + destruct secure; by intros c rest [= <- _].
    + intros c init E. rewrite app_assoc in E. cbn [txt list_ascii_of_string] in E.
      by apply app_inj_tail in E as [_ <-].
Qed.

Lemma normalizeHost_url_witness :
  normalizeHost
    (txt "  " ++ (txt (if true then "https://" else "http://")
                  ++ txt "Example.com/wiki" ++ txt "/") ++ txt " ")
  = txt "Example.com/wiki".
Proof.
  apply (normalizeHost_url (txt "  ") (txt " ") (txt "Example.com/wiki") true).
  - by repeat constructor.
  - by repeat constructor.
Defined.

(** ** Loading and installing the settings *)

Lemma jsonObject_lookup (o : object) k :
  jsonObject o !! k =
  match o !! k with
  | Some v => if isUndefined v then None else Some (toJSON v)
  | None => None
  end.
Proof.
  unfold jsonObject. rewrite lookup_fmap.
  destruct (o !! k) as [v|] eqn:E.
  - destruct (isUndefined v) eqn:Hv.
    + rewrite (proj2 (map_lookup_filter_None _ o k)); [done|].
      right. intros v' Hv'. cbn. congruence.
    + by rewrite (map_lookup_filter_Some_2 _ o k v).
  - rewrite (proj2 (map_lookup_filter_None _ o k)); [done|]. by left.
Qed.

Lemma storageGet_lookup (stored defaults : object) k :
  storageGet stored defaults !! k =
  match defaults !! k with
  | Some d => match jsonObject stored !! k with Some v => Some v | None => Some d end
  | None => None
  end.
Proof.
  unfold storageGet. rewrite lookup_union.
  destruct (defaults !! k) as [d|] eqn:Hd.
  - destruct (jsonObject stored !! k) as [v|] eqn:E.
    + rewrite (map_lookup_filter_Some_2 _ _ k v); [done..|].
      cbn. apply elem_of_dom. eauto.
    + rewrite (proj2 (map_lookup_filter_None _ _ k)); [done|]. by left.
  - rewrite (proj2 (map_lookup_filter_None _ _ k)); [done|].
    right. intros v _. cbn. by rewrite elem_of_dom, Hd; intros [??].
Qed.

Lemma loadSettings_lookup stored k :
  loadSettings stored !! k =
  match DEFAULTS !! k with
  | Some d =>
      match stored !! k with
      | Some v => if isUndefined v then Some d else Some (toJSON v)
      | None => Some d
      end
  | None => None
  end.
Proof.
  unfold loadSettings. rewrite assign_lookup, storageGet_lookup, jsonObject_lookup.
  destruct (DEFAULTS !! k) as [d|]; [|done].
  destruct (stored !! k) as [v|]; [|done]. by destruct (isUndefined v).
Qed.

Lemma toJSON_idemp v : toJSON (toJSON v) = toJSON v.
Proof.
  revert v. fix IH 1. intros [| |b|[|z]|str|items|fields]; try reflexivity.
  - cbn [toJSON]. f_equal.
    induction items as [|x items IHitems]; [done|].
    rewrite !fmap_cons. f_equal; [apply IH | apply IHitems].
  - cbn [toJSON]. f_equal.
    induction fields as [|[k x] fields IHfields]; [done|].
    destruct (isUndefined x) eqn:E; [apply IHfields|].
    rewrite toJSON_defined. f_equal; [f_equal; apply IH | apply IHfields].
Qed.

Lemma toJSON_DEFAULTS k d : DEFAULTS !! k = Some d → toJSON d = d.
Proof.
  unfold DEFAULTS. intros H.
  repeat (apply lookup_insert_Some in H as [[_ <-]|[_ H]]; [done|]).
  by apply lookup_singleton_Some in H as [_ <-].
Qed.

Lemma loadSettings_onInstalled stored :
  loadSettings (onInstalled stored) = loadSettings stored.
Proof.
  apply map_eq. intros k. rewrite (loadSettings_lookup (onInstalled stored)).
  unfold onInstalled, storageSet. fold (loadSettings stored).
  rewrite assign_lookup, !loadSettings_lookup.
  destruct (DEFAULTS !! k) as [d|] eqn:Hd; [|done].
  destruct (stored !! k) as [v|]; [destruct (isUndefined v) eqn:Hv|].
  - destruct (isUndefined d); [done|]. by rewrite (toJSON_DEFAULTS k d).
  - by rewrite toJSON_defined, toJSON_idemp.
  - destruct (isUndefined d); [done|]. by rewrite (toJSON_DEFAULTS k d).
Qed.

(** X11.  What [loadSettings] reads: the snapshot has the keys of the
    defaults and no other; a key of the defaults gets the value stored for
    it, as the JSON store gives it back, and the default when nothing (or
    [undefined]) is stored. *)
Theorem loadSettings_values (stored : object) :
  dom (loadSettings stored) = dom DEFAULTS
  ∧ ∀ k d, DEFAULTS !! k = Some d →
      loadSettings stored !! k =
        Some (match stored !! k with
              | Some v => if isUndefined v then d else toJSON v
              | None => d
              end).
Proof.
  split.
  - apply set_eq. intros k. rewrite !elem_of_dom, loadSettings_lookup.
    destruct (DEFAULTS !! k) as [d|]; [|done].
    destruct (stored !! k) as [v|]; [destruct (isUndefined v)|];
      split; eauto.
  - intros k d Hd. rewrite loadSettings_lookup, Hd.
    destruct (stored !! k) as [v|]; [|done]. by destruct (isUndefined v).
Qed.

(** X12.  The install listener of background.js writes a value other than
    [undefined] for every key of the defaults and leaves every other stored
    key as it is; the settings a page loads afterwards are the ones it would
    have loaded before, and running the listener again (an update of the
    extension) changes nothing. *)
Theorem onInstalled_keeps (stored : object) :
  populated (onInstalled stored)
  ∧ (∀ k, k ∉ dom DEFAULTS → onInstalled stored !! k = stored !! k)
  ∧ loadSettings (onInstalled stored) = loadSettings stored
  ∧ onInstalled (onInstalled stored) = onInstalled stored.
Proof.
  split_and!.
  - unfold onInstalled, storageSet. fold (loadSettings stored).
    intros k Hk. rewrite assign_lookup.
    destruct (populated_loadSettings stored k Hk) as (v & -> & Hv). eauto.
  - intros k Hk. unfold onInstalled, storageSet. fold (loadSettings stored).
    rewrite assign_lookup, loadSettings_lookup.
    apply not_elem_of_dom in Hk. by rewrite Hk.
  - apply loadSettings_onInstalled.
  - unfold onInstalled at 1. fold (loadSettings (onInstalled stored)).
    rewrite loadSettings_onInstalled. unfold onInstalled, storageSet, assign.
    fold (loadSettings stored).
    by rewrite (assoc_L (∪)), (idemp_L (∪)).
Qed.

(** ** The scan pass *)

Lemma masked_idemp state e : masked state (masked state e) = masked state e.
Proof.
  unfold masked. destruct (isMasked e) eqn:E; [by rewrite E|].
  by rewrite isMasked_maskEffect.
Qed.

Lemma computedStyle_masked state e : computedStyle (masked state e) = computedStyle e.
Proof.
  unfold masked, maskEffect, modeEffect. destruct (isMasked e); [done|].
  destruct e.
  by destruct (String.eqb (mode state) "blackout"),
    (String.eqb (mode state) "collapse"), (highlightDebug state).
Qed.

Lemma maskElement_alter state h (σ : page) e :
  σ !! h = Some e →
  maskElement (Ref h) (mode state) (intensity state) (highlightDebug state) σ =
  Normal tt (alter (masked state) h σ).
Proof.
  intros He. unfold masked. destruct (isMasked e) eqn:E.
  - rewrite (maskElement_masked h _ _ _ σ e He E). f_equal.
    apply map_eq. intros h'. destruct (decide (h' = h)) as [->|Hne].
    + by rewrite lookup_alter_eq, He; cbn; rewrite E.
    + by rewrite lookup_alter_ne.
  - rewrite (maskElement_unmasked h _ _ _ σ e He E). f_equal.
    apply map_eq. intros h'. destruct (decide (h' = h)) as [->|Hne].
    + by rewrite lookup_insert_eq, lookup_alter_eq, He; cbn; rewrite E.
    + by rewrite lookup_insert_ne, lookup_alter_ne.
Qed.

Lemma scanStep_lookup state re (σ : page) tn h :
  scanStep state re σ tn !! h =
  if targets re h tn then masked state <$> σ !! h else σ !! h.
Proof.
  unfold scanStep, targets.
  destruct (RegExp.test re (nodeValue tn)) as [[|]|]; [|done..].
  destruct (parentElement tn) as [| |h']; [done..|]. case_bool_decide as E.
  - by rewrite E, lookup_alter_eq.
  - by rewrite lookup_alter_ne.
Qed.

Lemma foldl_scanStep_lookup state re nodes (σ : page) h :
  foldl (scanStep state re) σ nodes !! h =
  if existsb (targets re h) nodes then masked state <$> σ !! h else σ !! h.
Proof.
  revert σ. induction nodes as [|tn nodes IH]; intros σ; [done|].
  cbn [foldl existsb]. rewrite IH, scanStep_lookup.
  destruct (targets re h tn), (existsb (targets re h) nodes); cbn [orb]; try done.
  destruct (σ !! h); [|done]. cbn. by rewrite masked_idemp.
Qed.


(** The loop of [scan] on nodes whose parents are elements of the page. *)
Lemma forEach_scanStep state re nodes (σ : page) :
  (∀ tn, tn ∈ nodes → ∃ h, parentElement tn = Ref h ∧ is_Some (σ !! h)) →
  forEach nodes (λ tn,
    match RegExp.test re (nodeValue tn) with
    | Some true =>
        maskElement (parentElement tn) (mode state) (intensity state)
                    (highlightDebug state)
    | _ => ret tt
    end) σ
  = Normal tt (foldl (scanStep state re) σ nodes).
Proof.
  revert σ. induction nodes as [|tn nodes IH]; intros σ Hp; [done|].
  cbn [forEach foldl].
  destruct (Hp tn) as (h & Hh & e & He); [set_solver|].
  assert ((match RegExp.test re (nodeValue tn) with
           | Some true =>
               maskElement (parentElement tn) (mode state) (intensity state)
                           (highlightDebug state)
           | _ => ret tt
           end) σ = Normal tt (scanStep state re σ tn)) as Hstep.
  { unfold scanStep. destruct (RegExp.test re (nodeValue tn)) as [[|]|]; [|done..].
    rewrite Hh. by apply (maskElement_alter state h σ e). }
  rewrite (bind_Normal _ _ _ _ _ Hstep). apply IH.
  intros tn' Hin. destruct (Hp tn') as (h' & Hh' & He'); [set_solver|].
  exists h'. split; [done|]. rewrite scanStep_lookup.
  destruct (targets re h' tn); [|done]. by apply fmap_is_Some.
Qed.

Lemma scan_Some state body re (σ : page) :
  scan state body (Some re) σ =
  Normal tt (foldl (scanStep state re) σ (textNodesUnder σ body)).
Proof.
  unfold scan.
  rewrite (bind_Normal (λ σ0 : page, Normal (textNodesUnder σ0 body) σ0) _
             σ (textNodesUnder σ body) σ eq_refl).
  apply forEach_scanStep. intros tn [Hacc _]%list_elem_of_filter.
  apply acceptNode_true in Hacc as (_ & h & parent & _ & Hh & Hp & _). eauto.
Qed.


Lemma acceptNode_ext (σ σ' : page) state tn :
  (∀ h, σ' !! h = σ !! h ∨ σ' !! h = masked state <$> σ !! h) →
  acceptNode σ' tn = acceptNode σ tn.
Proof.
  intros H. unfold acceptNode, getComputedStyle.
  destruct (parentElement tn) as [| |h]; [done..|].
  destruct (H h) as [-> | ->]; [done|]. destruct (σ !! h) as [e|]; [|done].
  cbn. by rewrite computedStyle_masked.
Qed.

Lemma scan_lookup state body re (σ : page) h :
  foldl (scanStep state re) σ (textNodesUnder σ body) !! h = σ !! h
  ∨ foldl (scanStep state re) σ (textNodesUnder σ body) !! h
    = masked state <$> σ !! h.
Proof.
  rewrite foldl_scanStep_lookup. destruct (existsb _ _); eauto.
Qed.



Lemma textNodesUnder_scan state body re (σ : page) :
  textNodesUnder (foldl (scanStep state re) σ (textNodesUnder σ body)) body
  = textNodesUnder σ body.
Proof.
  unfold textNodesUnder at 1 3. apply list_filter_iff. intros tn.
  by rewrite (acceptNode_ext σ _ state tn (scan_lookup state body re σ)).
Qed.

(** X14.  Scanning again changes nothing: a second pass over the same text
    nodes, with the same settings and matcher, leaves the page as the first
    pass left it (in a mode other than collapse). *)
Theorem scan_again (state : settings) (body : list textNode)
  (regex : option RegExp.t) (σ : page) :
  mode state ≠ "collapse" →
  (scan state body regex;; scan state body regex) σ = scan state body regex σ.
Proof.
  intros _. destruct regex as [re|]; [|done].
  rewrite (bind_Normal _ _ _ _ _ (scan_Some state body re σ)).
  rewrite !scan_Some, textNodesUnder_scan. f_equal.
  apply map_eq. intros h. rewrite !foldl_scanStep_lookup.
  destruct (existsb _ _); [|done]. destruct (σ !! h); [|done].
  cbn. by rewrite masked_idemp.
Qed.

Lemma scan_again_witness :
  let state := Settings true 0 [txt "dies"] "blackout" (Num 8) false true ∅ in
  let σ : page := {[ 0 := Element [] ∅ ∅ (Some (Computed "visible" "block")) [] [] ]} in
  let body := [TextNode (txt "Snape dies") (Ref 0)] in
  let regex := buildRegex (keywords state) (partial state) in
  (scan state body regex;; scan state body regex) σ = scan state body regex σ.
Proof.
  apply (scan_again (Settings true 0 [txt "dies"] "blackout" (Num 8) false true ∅)
           [TextNode (txt "Snape dies") (Ref 0)]
           (buildRegex [txt "dies"] false)
           {[ 0 := Element [] ∅ ∅ (Some (Computed "visible" "block")) [] [] ]}).
  discriminate.
Defined.




(** ** The masking engine, mode by mode *)

Lemma orElse_0 intensity :
  Z.max 0 (orElse intensity 0) = match intensity with Num z => Z.max 0 z | NaN => 0%Z end.
Proof. destruct intensity as [|z]; [done|]. cbn. by destruct (Z.eqb_spec z 0) as [->|]. Qed.

(** X16.  Collapse mode on an element that carries no mask: the element gets
    [max-height] of [intensity] pixels, 0 for a negative intensity or one that
    is no number, with [overflow: hidden] and [position: relative], all
    [!important], and the overlay as its new last child; [filter] and the
    element's own click listeners stay as they were. *)
Theorem collapse_height h (σ : page) e intensity debug :
  σ !! h = Some e → isMasked e = false →
  ∃ e',
    maskElement (Ref h) "collapse" intensity debug σ = Normal tt (<[h := e']> σ)
    ∧ style e' !! "max-height" =
        Some (Declaration
                (Px (match intensity with Num z => Z.max 0 z | NaN => 0%Z end)) true)
    ∧ style e' !! "overflow" = Some (Declaration (Keyword "hidden") true)
    ∧ style e' !! "position" = Some (Declaration (Keyword "relative") true)
    ∧ children e' = children e ++ [overlay]
    ∧ style e' !! "filter" = style e !! "filter"
    ∧ clickListeners e' = clickListeners e.
Proof.
  intros He Hm. exists (maskEffect "collapse" intensity debug e).
  split; [by apply maskElement_unmasked|].
  rewrite <- orElse_0. unfold maskEffect, modeEffect, important'.
  destruct e, debug; cbn [String.eqb Ascii.eqb Bool.eqb withChildren withStyle
    withClassList withDataset withListeners style children clickListeners];
    split_and!; by simplify_map_eq.
Qed.

Lemma collapse_height_witness :
  ∃ e',
    maskElement (Ref 0) "collapse" (Num (-5)) false {[ 0 := Element [] ∅ ∅ None [] [] ]} =
      Normal tt (<[0 := e']> {[ 0 := Element [] ∅ ∅ None [] [] ]})
    ∧ style e' !! "max-height" = Some (Declaration (Px (Z.max 0 (-5))) true)
    ∧ style e' !! "overflow" = Some (Declaration (Keyword "hidden") true)
    ∧ style e' !! "position" = Some (Declaration (Keyword "relative") true)
    ∧ children e' = children (Element [] ∅ ∅ None [] []) ++ [overlay]
    ∧ style e' !! "filter" = style (Element [] ∅ ∅ None [] []) !! "filter"
    ∧ clickListeners e' = clickListeners (Element [] ∅ ∅ None [] []).
Proof.
  apply (collapse_height 0 {[ 0 := Element [] ∅ ∅ None [] [] ]}
           (Element [] ∅ ∅ None [] []) (Num (-5)) false).
  - reflexivity.
  - reflexivity.
Defined.

(** X17.  Blackout mode on an element that carries no mask: [color] is
    transparent, [background] is [#000], [text-shadow] and [filter] are
    [none], all [!important]; the element gets no click listener and no
    child. *)
Theorem blackout_style h (σ : page) e intensity debug :
  σ !! h = Some e → isMasked e = false →
  ∃ e',
    maskElement (Ref h) "blackout" intensity debug σ = Normal tt (<[h := e']> σ)
    ∧ style e' !! "color" = Some (Declaration (Keyword "transparent") true)
    ∧ style e' !! "background" = Some (Declaration (Keyword "#000") true)
    ∧ style e' !! "text-shadow" = Some (Declaration (Keyword "none") true)
    ∧ style e' !! "filter" = Some (Declaration (Keyword "none") true)
    ∧ clickListeners e' = clickListeners e
    ∧ children e' = children e.
Proof.
  intros He Hm. exists (maskEffect "blackout" intensity debug e).
  split; [by apply maskElement_unmasked|].
  unfold maskEffect, modeEffect, important'.
  destruct e, debug; cbn [String.eqb Ascii.eqb Bool.eqb withChildren withStyle
    withClassList withDataset withListeners style children clickListeners];
    split_and!; by simplify_map_eq.
Qed.

Lemma blackout_style_witness :
  ∃ e',
    maskElement (Ref 0) "blackout" (Num 8) true {[ 0 := Element [] ∅ ∅ None [] [] ]} =
      Normal tt (<[0 := e']> {[ 0 := Element [] ∅ ∅ None [] [] ]})
    ∧ style e' !! "color" = Some (Declaration (Keyword "transparent") true)
    ∧ style e' !! "background" = Some (Declaration (Keyword "#000") true)
    ∧ style e' !! "text-shadow" = Some (Declaration (Keyword "none") true)
    ∧ style e' !! "filter" = Some (Declaration (Keyword "none") true)
    ∧ clickListeners e' = clickListeners (Element [] ∅ ∅ None [] [])
    ∧ children e' = children (Element [] ∅ ∅ None [] []).
Proof.
  apply (blackout_style 0 {[ 0 := Element [] ∅ ∅ None [] [] ]}
           (Element [] ∅ ∅ None [] []) (Num 8) true).
  - reflexivity.
  - reflexivity.
Defined.



(** ** Reveal, then the next pass *)





(** ** From a storage change to the page's settings *)

(** X20.  A change of the synced store reaches the settings of a page
    through the background's message: each changed key that has a new value
    takes it (as JSON gives it back), a key that was removed from the store
    keeps the value the page had (it does not fall back to its default), and
    the keys that did not change stay; a change in another storage area
    sends nothing. *)
Theorem storage_change_reaches_page (state : object)
  (changes : gmap string storageChange) (area : string) :
  (area ≠ "sync" → onChanged changes area = None)
  ∧ ∃ msg, onChanged changes "sync" = Some msg
      ∧ ∀ k, onMessage state (deliver msg) !! k =
          match changes !! k ≫= newValue with
          | Some v => if isUndefined v then state !! k else Some (toJSON v)
          | None => state !! k
          end.
Proof.
  split.
  - intros H. unfold onChanged. by apply String.eqb_neq in H as ->.
  - eexists. split; [reflexivity|]. intros k. unfold onMessage, deliver.
    cbn [type payload fmap option_fmap option_map String.eqb Ascii.eqb Bool.eqb
         default].
    rewrite assign_lookup. unfold id.
    rewrite jsonObject_lookup, lookup_fmap.
    destruct (changes !! k) as [[old [v|]]|]; cbn; [|done..].
    by destruct (isUndefined v).
Qed.

(** ** From the add button to the matcher *)

(** X21.  A keyword added in the popup or from the context menu is one the
    scan matches: for an input that is not blank, [buildRegex] gives a
    matcher for the new list, and with [partial] on, that matcher accepts
    every text in which the trimmed input occurs, letter case apart. *)
Theorem added_keyword_matches (input : text) (stored : list text) (s : text) (i : nat) :
  trim input ≠ [] → occursAt (trim input) s i →
  ∃ r, buildRegex (addKeyword input stored) true = Some r
       ∧ RegExp.test r s = Some true.
Proof.
  intros Hne Hocc.
  assert (trim input ∈ keptKeywords (addKeyword input stored)) as Hin.
  { apply elem_of_keptKeywords. split; [done|]. exists (trim input).
    split; [|by rewrite trim_idemp].
    rewrite addKeyword_term by by destruct (trim input).
    apply elem_of_setAdd. by right. }
  destruct (buildRegex (addKeyword input stored) true) as [r|] eqn:Hr.
  - exists r. split; [done|]. apply (test_buildRegex_true _ _ _ _ Hr).
    by exists (trim input), i.
  - apply buildRegex_None in Hr. rewrite Hr in Hin. by apply elem_of_nil in Hin.
Qed.

Lemma added_keyword_matches_witness :
  ∃ r, buildRegex (addKeyword (txt " dies ") [txt "finale"]) true = Some r
       ∧ RegExp.test r (txt "Snape DIES") = Some true.
Proof.
  apply (added_keyword_matches (txt " dies ") [txt "finale"] (txt "Snape DIES") 6).
  - discriminate.
  - exists (txt "Snape "), (txt "DIES"), []. by split_and!.
Defined.

(** ** What a reveal leaves behind *)


